(** * ModelFusion: the validated event reader, the stream-to-iterator
    adapter and the Cohere embedding model

    A shallow embedding of
    - [src/browser/readEventSourceStream.ts],
    - [src/util/convertReadableStreamToAsyncIterator.ts],
    - [src/model-provider/cohere/CohereTextEmbeddingModel.ts]
    together with the collaborators these files import but the repository
    snapshot does not contain (the async queue, the JSON helper). *)

From Stdlib Require Import ZArith Ascii String List Lia SpecFloat.
From stdpp Require Import base option list strings gmap relations pretty.

Local Open Scope Z_scope.
Set Warnings "-register-all".

(** ** Thrown values

    JavaScript code can throw any value.  The classes below are the ones the
    design distinguishes; [JsError] stands for every other thrown value
    (a failed read of the byte stream, an exception raised inside a
    callback, ...). *)
Inductive error : Type :=
| JSONParseError (text : string)
| TypeValidationError (detail : string)
| DecodeError (detail : string)
| QueueClosedError
| JsError (detail : string).

#[global] Instance error_eq_dec : EqDecision error.
Proof. solve_decision. Defined.

(** ** JSON texts and values *)
Module Json.

(** A number is a double, held as the standard library's specification
    of IEEE 754 binary64 has it.  A string is held as the bytes of its
    UTF-8 encoding, as the texts are. *)
Inductive json : Type :=
| JNull
| JBool (b : bool)
| JNumber (value : spec_float)
| JString (s : string)
| JArray (items : list json)
| JObject (fields : list (string * json)).

(** Property assignment on an object literal: a repeated key keeps its
    position and takes the later value. *)
Fixpoint set_field (k : string) (v : json) (fields : list (string * json))
  : list (string * json) :=
  match fields with
  | [] => [(k, v)]
  | (k', v') :: rest =>
      if String.eqb k k' then (k, v) :: rest
      else (k', v') :: set_field k v rest
  end.

Fixpoint get_field (k : string) (fields : list (string * json)) : option json :=
  match fields with
  | [] => None
  | (k', v) :: rest => if String.eqb k k' then Some v else get_field k rest
  end.

Local Open Scope char_scope.
Local Open Scope Z_scope.

Definition is_ws (c : ascii) : bool :=
  match c with
  | " " | "009" | "010" | "013" => true
  | _ => false
  end.

Fixpoint skip_ws (s : list ascii) : list ascii :=
  match s with
  | c :: r => if is_ws c then skip_ws r else s
  | [] => []
  end.

Definition digit_of (c : ascii) : option Z :=
  let n := Z.of_nat (nat_of_ascii c) in
  if (48 <=? n) && (n <=? 57) then Some (n - 48) else None.

Definition hex_of (c : ascii) : option Z :=
  let n := Z.of_nat (nat_of_ascii c) in
  if (48 <=? n) && (n <=? 57) then Some (n - 48)
  else if (65 <=? n) && (n <=? 70) then Some (n - 55)
  else if (97 <=? n) && (n <=? 102) then Some (n - 87)
  else None.

(** Reads a maximal run of decimal digits: the digits read so far are
    folded into [acc]; returns the value, how many digits were read and
    the rest of the text. *)
Fixpoint digits (acc : Z) (count : Z) (s : list ascii) : Z * Z * list ascii :=
  match s with
  | c :: r =>
      match digit_of c with
      | Some d => digits (10 * acc + d) (count + 1) r
      | None => (acc, count, s)
      end
  | [] => (acc, count, [])
  end.

(** The double nearest to the decimal [m * 10 ^ e] (ties to even), with
    the sign given apart so that [-0] keeps it; too large a number gives an
    infinity. *)
Definition double (negative : bool) (m e : Z) : spec_float :=
  match m with
  | Z.pos p =>
      if 0 <=? e then
        binary_normalize 53 1024 (if negative then - (m * 10 ^ e) else m * 10 ^ e) 0 negative
      else
        SFdiv 53 1024 (S754_finite negative p 0)
                      (S754_finite false (Z.to_pos (10 ^ (- e))) 0)
  | _ => S754_zero negative
  end.

(** number = [ "-" ] int [ frac ] [ exp ] *)
Definition number (s : list ascii) : option (json * list ascii) :=
  let '(negative, s1) :=
    match s with "-" :: r => (true, r) | _ => (false, s) end in
  let '(ip, ni, s2) := digits 0 0 s1 in
  let leading_zero :=
    match s1 with "0" :: _ => negb (ni =? 1) | _ => false end in
  if (ni =? 0) || leading_zero then None
  else
    let frac :=
      match s2 with
      | "." :: r =>
          let '(m, nf, s3) := digits ip 0 r in
          if nf =? 0 then None else Some (m, nf, s3)
      | _ => Some (ip, 0, s2)
      end in
    match frac with
    | None => None
    | Some (m, nf, s3) =>
        match s3 with
        | c :: r =>
            if Ascii.eqb c "e" || Ascii.eqb c "E" then
              let '(esign, r1) :=
                match r with
                | "-" :: r' => (-1, r')
                | "+" :: r' => (1, r')
                | _ => (1, r)
                end in
              let '(ev, ne, s4) := digits 0 0 r1 in
              if ne =? 0 then None
              else Some (JNumber (double negative m (esign * ev - nf)), s4)
            else Some (JNumber (double negative m (- nf)), s3)
        | [] => Some (JNumber (double negative m (- nf)), [])
        end
    end.

(** The UTF-8 bytes of a code point; a surrogate that stands alone is
    written in three bytes like the code points around it. *)
Definition utf8 (c : Z) : list ascii :=
  let byte (n : Z) := ascii_of_nat (Z.to_nat n) in
  if c <? 128 then [byte c]
  else if c <? 2048 then [byte (192 + c / 64); byte (128 + c mod 64)]
  else if c <? 65536 then
    [byte (224 + c / 4096); byte (128 + (c / 64) mod 64); byte (128 + c mod 64)]
  else
    [byte (240 + c / 262144); byte (128 + (c / 4096) mod 64);
     byte (128 + (c / 64) mod 64); byte (128 + c mod 64)].

Definition hex4 (h1 h2 h3 h4 : ascii) : option Z :=
  match hex_of h1, hex_of h2, hex_of h3, hex_of h4 with
  | Some a, Some b, Some c, Some d => Some (4096 * a + 256 * b + 16 * c + d)
  | _, _, _, _ => None
  end.

Definition prepend (bytes : list ascii) (str : string) : string :=
  fold_right String str bytes.

(** The characters of a string literal after its opening quote, up to
    and including the closing quote (character 034).  An escape [\uXXXX]
    gives a UTF-16 code unit; a high surrogate followed by the escape of a
    low one is one code point. *)
Fixpoint chars (s : list ascii) : option (string * list ascii) :=
  match s with
  | [] => None
  | "034" :: r => Some (EmptyString, r)
  | "\" :: e :: r =>
      let simple (c : ascii) :=
        match chars r with
        | Some (str, rest) => Some (String c str, rest)
        | None => None
        end in
      match e with
      | "034" => simple "034"
      | "\" => simple "\"
      | "/" => simple "/"
      | "b" => simple "008"
      | "f" => simple "012"
      | "n" => simple "010"
      | "r" => simple "013"
      | "t" => simple "009"
      | "u" =>
          match r with
          | h1 :: h2 :: h3 :: h4 :: r' =>
              match hex4 h1 h2 h3 h4 with
              | None => None
              | Some unit =>
                  let alone :=
                    match chars r' with
                    | Some (str, rest) => Some (prepend (utf8 unit) str, rest)
                    | None => None
                    end in
                  if (55296 <=? unit) && (unit <=? 56319) then
                    match r' with
                    | "\" :: "u" :: l1 :: l2 :: l3 :: l4 :: r'' =>
                        match hex4 l1 l2 l3 l4 with
                        | Some low =>
                            if (56320 <=? low) && (low <=? 57343) then
                              match chars r'' with
                              | Some (str, rest) =>
                                  Some (prepend
                                          (utf8 (65536 + (unit - 55296) * 1024 + (low - 56320)))
                                          str, rest)
                              | None => None
                              end
                            else alone
                        | None => alone
                        end
                    | _ => alone
                    end
                  else alone
              end
          | _ => None
          end
      | _ => None
      end
  | c :: r =>
      if (Z.of_nat (nat_of_ascii c) <? 32) then None
      else match chars r with
           | Some (str, rest) => Some (String c str, rest)
           | None => None
           end
  end.

Inductive mode : Type := MValue | MElements | MMembers.

(** Recursive descent over the JSON grammar.  [MValue] reads one value,
    [MElements] the elements of an array after its bracket and
    [MMembers] the members of an object after its brace (returned as a
    [JArray], respectively a [JObject]). *)
Fixpoint parse (fuel : nat) (m : mode) (s : list ascii) : option (json * list ascii) :=
  match fuel with
  | O => None
  | S fuel' =>
      match m with
      | MValue =>
          match skip_ws s with
          | "n" :: "u" :: "l" :: "l" :: r => Some (JNull, r)
          | "t" :: "r" :: "u" :: "e" :: r => Some (JBool true, r)
          | "f" :: "a" :: "l" :: "s" :: "e" :: r => Some (JBool false, r)
          | "034" :: r =>
              match chars r with
              | Some (str, rest) => Some (JString str, rest)
              | None => None
              end
          | "[" :: r =>
              match skip_ws r with
              | "]" :: r' => Some (JArray [], r')
              | _ => parse fuel' MElements r
              end
          | "{" :: r =>
              match skip_ws r with
              | "}" :: r' => Some (JObject [], r')
              | _ => parse fuel' MMembers r
              end
          | c :: r => number (c :: r)
          | [] => None
          end
      | MElements =>
          match parse fuel' MValue s with
          | Some (v, r) =>
              match skip_ws r with
              | "," :: r' =>
                  match parse fuel' MElements r' with
                  | Some (JArray vs, r'') => Some (JArray (v :: vs), r'')
                  | _ => None
                  end
              | "]" :: r' => Some (JArray [v], r')
              | _ => None
              end
          | None => None
          end
      | MMembers =>
          match skip_ws s with
          | "034" :: r =>
              match chars r with
              | Some (key, r1) =>
                  match skip_ws r1 with
                  | ":" :: r2 =>
                      match parse fuel' MValue r2 with
                      | Some (v, r3) =>
                          match skip_ws r3 with
                          | "," :: r4 =>
                              match parse fuel' MMembers r4 with
                              | Some (JObject fs, r5) =>
                                  Some (JObject ((key, v) :: fs), r5)
                              | _ => None
                              end
                          | "}" :: r4 => Some (JObject [(key, v)], r4)
                          | _ => None
                          end
                      | None => None
                      end
                  | _ => None
                  end
              | None => None
              end
          | _ => None
          end
      end
  end.

(** Later duplicates of a key override earlier ones, as in [JSON.parse]. *)
Fixpoint dedupe (v : json) : json :=
  match v with
  | JArray vs => JArray (map dedupe vs)
  | JObject fs =>
      JObject (fold_left (fun acc kv => set_field (fst kv) (dedupe (snd kv)) acc) fs [])
  | _ => v
  end.

(** Modelled from the spec: [JSON.parse(text)], the JSON parsing that
    [safeParseJSON] does first; [None] stands for the thrown
    [SyntaxError]. *)
Definition JSON_parse (text : string) : option json :=
  let s := list_ascii_of_string text in
  match parse (2 * length s + 2) MValue s with
  | Some (v, rest) =>
      match skip_ws rest with
      | [] => Some (dedupe v)
      | _ => None
      end
  | None => None
  end.

Example parse_array :
  JSON_parse " [1, 2.50, -3e2, true, null, [], {}] " =
  Some (JArray [JNumber (S754_finite false 4503599627370496 (-52));
                JNumber (S754_finite false 5629499534213120 (-51));
                JNumber (S754_finite true 5277655813324800 (-44));
                JBool true; JNull; JArray []; JObject []]).
Proof. vm_compute. reflexivity. Qed.

(** Numbers are rounded to the nearest double: [0.1] is the double
    [0x1.999999999999ap-4], which longer decimals share; [2^53 + 1] is not
    a double; [1e309] overflows; [-0] keeps its sign. *)
Example parse_rounds_to_double :
  JSON_parse "0.1" = Some (JNumber (S754_finite false 7205759403792794 (-56))) /\
  JSON_parse "0.1000000000000000055511151231257827" = JSON_parse "0.1" /\
  JSON_parse "9007199254740993" = JSON_parse "9007199254740992" /\
  JSON_parse "1e23" = Some (JNumber (S754_finite false 5960464477539062 24)) /\
  JSON_parse "5e-324" = Some (JNumber (S754_finite false 1 (-1074))) /\
  JSON_parse "2e-324" = Some (JNumber (S754_zero false)) /\
  JSON_parse "1e309" = Some (JNumber (S754_infinity false)) /\
  JSON_parse "-0" = Some (JNumber (S754_zero true)).
Proof. vm_compute. by repeat split. Qed.

(** Escapes: [\u00e9] gives the two bytes of U+00E9, the same as the
    character written out; a surrogate pair gives the four bytes of its code
    point (here U+1F600); an escaped quote does not end the string. *)
Example parse_unicode_escapes :
  JSON_parse (String "034" (String.append "\u00e9" (String "034" EmptyString))) =
    Some (JString (String "195" (String "169" EmptyString))) /\
  JSON_parse (String "034" (String "195" (String "169" (String "034" EmptyString)))) =
    Some (JString (String "195" (String "169" EmptyString))) /\
  JSON_parse (String "034" (String.append "\ud83d\ude00" (String "034" EmptyString))) =
    Some (JString (String "240" (String "159" (String "152" (String "128" EmptyString))))) /\
  JSON_parse (String "034" (String.append "a\" (String "034" (String "034" EmptyString)))) =
    Some (JString (String "a" (String "034" EmptyString))).
Proof. vm_compute. by repeat split. Qed.

Example parse_rejects_leading_zero : JSON_parse "01" = None.
Proof. vm_compute. reflexivity. Qed.

Example parse_rejects_trailing_text : JSON_parse "1 2" = None.
Proof. vm_compute. reflexivity. Qed.

Example parse_rejects_trailing_comma : JSON_parse "[1,]" = None.
Proof. vm_compute. reflexivity. Qed.

End Json.

(** ** The async queue

    [../util/AsyncQueue.js] is imported by [readEventSourceStream.ts] but is
    not part of the sources; the queue below follows its description. *)
Module AsyncQueue.

(** Modelled from the spec: the terminal state of the queue of
    [../util/AsyncQueue.js] ([open], [closed], [closed-with-error]). *)
Inductive Status : Type :=
| Open
| Closed
| ClosedWithError (e : error).

(** Modelled from the spec: the queue of [../util/AsyncQueue.js], an
    ordered sequence of pending items plus a terminal state. *)
Record t (T : Type) : Type := mk { items : list T; status : Status }.
Arguments mk {T} items status.
Arguments items {T} _.
Arguments status {T} _.

(** What one "get next" of the consumer resolves to; [Pending] is the
    suspended request on an empty, open queue. *)
Inductive Next (T : Type) : Type :=
| Item (v : T)
| End
| Raise (e : error)
| Pending.
Arguments Item {T} v.
Arguments End {T}.
Arguments Raise {T} e.
Arguments Pending {T}.

(** What the consumer's iteration observes. *)
Inductive Signal (T : Type) : Type :=
| Got (v : T)
| Ended
| Failed (e : error).
Arguments Got {T} v.
Arguments Ended {T}.
Arguments Failed {T} e.

(** The calls a producer can make. *)
Inductive Op (T : Type) : Type :=
| Push (v : T)
| PushError (e : error)
| Close.
Arguments Push {T} v.
Arguments PushError {T} e.
Arguments Close {T}.

Section Queue.
Context {T : Type}.

Definition new : t T := mk [] Open.

(** Modelled from the spec: [push(item)] of [../util/AsyncQueue.js]
    appends to the tail and fails with [QueueClosedError] on a closed
    queue. *)
Definition push (v : T) (q : t T) : error + t T :=
  match status q with
  | Open => inr (mk (items q ++ [v]) Open)
  | _ => inl QueueClosedError
  end.

(** Modelled from the spec: the push with error of
    [../util/AsyncQueue.js] closes the queue in an error state; pending
    items are discarded. *)
Definition push_error (e : error) (q : t T) : t T :=
  match status q with
  | Open => mk [] (ClosedWithError e)
  | _ => q
  end.

(** Modelled from the spec: [close()] of [../util/AsyncQueue.js] marks
    no-more-items and keeps what is queued; it is idempotent. *)
Definition close (q : t T) : t T :=
  match status q with
  | Open => mk (items q) Closed
  | _ => q
  end.

(** Modelled from the spec: one "get next" on the queue of
    [../util/AsyncQueue.js] resolves to a buffered item if there is one,
    else to the terminal state; on an open queue it stays suspended.  An
    error is surfaced once. *)
Definition next (q : t T) : Next T * t T :=
  match items q with
  | v :: rest => (Item v, mk rest (status q))
  | [] =>
      match status q with
      | Open => (Pending, q)
      | Closed => (End, q)
      | ClosedWithError e => (Raise e, mk [] Closed)
      end
  end.

Definition apply (op : Op T) (q : t T) : t T :=
  match op with
  | Push v => match push v q with inr q' => q' | inl _ => q end
  | PushError e => push_error e q
  | Close => close q
  end.

Definition replay (ops : list (Op T)) (q : t T) : t T :=
  fold_left (fun q op => apply op q) ops q.

(** What a consumer that starts after the producer has finished reads
    until the sequence ends (or until it is left waiting). *)
Definition drain (q : t T) : list (Signal T) :=
  map Got (items q) ++
  match status q with
  | Open => []
  | Closed => [Ended]
  | ClosedWithError e => [Failed e]
  end.

Definition observe (ops : list (Op T)) : list (Signal T) :=
  drain (replay ops new).

(** *** Producer and consumer interleaved

    The producer issues its calls one by one; between any two of them
    the consumer may ask for the next item.  A request on an empty open
    queue stays suspended (no step).  The iteration is over once it saw
    the end or an error. *)
Record Sys : Type :=
  mkSys { todo : list (Op T); queue : t T; seen : list (Signal T); over : bool }.

Definition init (ops : list (Op T)) : Sys := mkSys ops new [] false.

Inductive step : Sys -> Sys -> Prop :=
| step_producer op ops q sn ov :
    step (mkSys (op :: ops) q sn ov) (mkSys ops (apply op q) sn ov)
| step_item ops q q' sn v :
    next q = (Item v, q') ->
    step (mkSys ops q sn false) (mkSys ops q' (sn ++ [Got v]) false)
| step_end ops q q' sn :
    next q = (End, q') ->
    step (mkSys ops q sn false) (mkSys ops q' (sn ++ [Ended]) true)
| step_raise ops q q' sn e :
    next q = (Raise e, q') ->
    step (mkSys ops q sn false) (mkSys ops q' (sn ++ [Failed e]) true).

Definition stuck (s : Sys) : Prop := forall s', ~ step s s'.

Definition plain (op : Op T) : bool :=
  match op with PushError _ => false | _ => true end.

End Queue.

Section QueueFacts.
Context {T : Type}.
Implicit Types (q : t T) (ops : list (Op T)) (s : @Sys T).

Lemma replay_cons op ops q : replay (op :: ops) q = replay ops (apply op q).
Proof. reflexivity. Qed.

Lemma replay_app ops1 ops2 q : replay (ops1 ++ ops2) q = replay ops2 (replay ops1 q).
Proof. unfold replay. apply fold_left_app. Qed.

Lemma replay_pushes (vs : list T) (its : list T) :
  replay (map Push vs) (mk its Open) = mk (its ++ vs) Open.
Proof.
  revert its. induction vs as [|v vs IH]; intros its; cbn [map].
  - by rewrite app_nil_r.
  - rewrite replay_cons. cbn [apply]. unfold push. cbn [status items]. rewrite IH.
    by rewrite <- app_assoc.
Qed.

Lemma apply_closed op q : plain op = true -> status q = Closed -> apply op q = q.
Proof.
  destruct op; simpl; try done; intros _ Hq.
  - unfold push. by rewrite Hq.
  - unfold close. by rewrite Hq.
Qed.

Lemma replay_closed ops q :
  Forall (fun op => plain op = true) ops -> status q = Closed -> replay ops q = q.
Proof.
  induction 1 as [|op ops Hop _ IH]; intros Hq; [done|].
  rewrite replay_cons, apply_closed by done. by apply IH.
Qed.

Lemma observe_pushes_close (vs : list T) (more : list (Op T)) :
  Forall (fun op => plain op = true) more ->
  observe (map Push vs ++ Close :: more) = map Got vs ++ [Ended].
Proof.
  intros Hm. unfold observe, new. rewrite replay_app, replay_pushes, replay_cons.
  cbn [apply]. unfold close. cbn [status items app]. by rewrite replay_closed.
Qed.

Lemma observe_pushes (vs : list T) : observe (map Push vs) = map (@Got T) vs.
Proof. unfold observe, new. rewrite replay_pushes. unfold drain. simpl. by rewrite app_nil_r. Qed.

(** A buffered head item stays at the head whatever the producer does next. *)
Lemma replay_head ops v rest st :
  Forall (fun op => plain op = true) ops ->
  drain (replay ops (mk (v :: rest) st)) = Got v :: drain (replay ops (mk rest st)).
Proof.
  intros Hops. revert rest st.
  induction Hops as [|op ops Hop _ IH]; intros rest st; [done|].
  rewrite !replay_cons. destruct op; try done; cbn [apply].
  - unfold push; cbn [status items]. destruct st; rewrite <- ?app_comm_cons; apply IH.
  - unfold close; cbn [status items]. destruct st; apply IH.
Qed.

Definition final (s : @Sys T) : list (Signal T) :=
  seen s ++ (if over s then [] else drain (replay (todo s) (queue s))).

Definition sane (s : @Sys T) : Prop :=
  Forall (fun op => plain op = true) (todo s) /\
  (forall e, status (queue s) <> ClosedWithError e).

Lemma apply_plain_status op q :
  plain op = true -> (forall e, status q <> ClosedWithError e) ->
  forall e, status (apply op q) <> ClosedWithError e.
Proof.
  destruct op; try done; simpl; intros _ Hq e.
  - unfold push. destruct (status q) eqn:E; simpl; congruence.
  - unfold close. destruct (status q) eqn:E; simpl; congruence.
Qed.

Lemma step_sane s s' : step s s' -> sane s -> sane s' /\ final s' = final s.
Proof.
  unfold sane, final.
  destruct 1 as [op ops q sn ov|ops q q' sn v Hn|ops q q' sn Hn|ops q q' sn e Hn];
    simpl; intros [Hops Hst].
  - inversion Hops; subst. split; [split; [done|by apply apply_plain_status]|done].
  - unfold next in Hn. destruct q as [[|x rest] st]; simpl in *.
    + destruct st; congruence.
    + simplify_eq. cbn [status]. split; [by split|].
      rewrite replay_head by done. by rewrite <- app_assoc.
  - unfold next in Hn. destruct q as [[|x rest] st]; simpl in *; [|congruence].
    destruct st; try congruence. simplify_eq. split; [by split|].
    rewrite replay_closed by done. by rewrite app_nil_r.
  - unfold next in Hn. destruct q as [[|x rest] st]; simpl in *; [|congruence].
    destruct st; congruence.
Qed.

Lemma steps_sane s s' : rtc step s s' -> sane s -> sane s' /\ final s' = final s.
Proof.
  induction 1 as [|s1 s2 s3 H12 _ IH]; [done|].
  intros Hs. destruct (step_sane _ _ H12 Hs) as [Hs2 E2].
  destruct (IH Hs2) as [Hs3 E3]. split; [done|congruence].
Qed.

Lemma stuck_final s : stuck s -> final s = seen s.
Proof.
  intros Hst. unfold final. destruct s as [ops q sn ov]; simpl.
  destruct ov; [by rewrite app_nil_r|].
  destruct ops as [|op ops]; [|by destruct (Hst _ (step_producer op ops q sn false))].
  unfold replay; simpl.
  destruct q as [[|x rest] st].
  - destruct st.
    + unfold drain. simpl. by rewrite app_nil_r.
    + by destruct (Hst _ (step_end [] (mk [] Closed) _ sn eq_refl)).
    + by destruct (Hst _ (step_raise [] (mk [] (ClosedWithError e)) _ sn e eq_refl)).
  - by destruct (Hst _ (step_item [] (mk (x :: rest) st) _ sn x eq_refl)).
Qed.

(** At any point of any interleaving the consumer has seen an initial
    part of what the consumer of the finished queue sees. *)
Lemma seen_prefix ops s :
  Forall (fun op => plain op = true) ops ->
  rtc step (init ops) s -> seen s `prefix_of` observe ops.
Proof.
  intros Hops Hrun.
  destruct (steps_sane _ _ Hrun) as [_ E].
  - split; [done|]. simpl. congruence.
  - unfold final in E. cbn [init seen over todo queue app] in E.
    fold (observe ops) in E. rewrite <- E. by eexists.
Qed.

(** Whatever the interleaving, a consumer that can go no further has seen
    what the consumer of the finished queue sees. *)
Lemma schedule_independent ops s :
  Forall (fun op => plain op = true) ops ->
  rtc step (init ops) s -> stuck s -> seen s = observe ops.
Proof.
  intros Hops Hrun Hst.
  destruct (steps_sane _ _ Hrun) as [_ E].
  - split; [done|]. simpl. congruence.
  - rewrite <- (stuck_final s Hst), E. reflexivity.
Qed.

Lemma producer_run ops q sn ov :
  rtc step (mkSys ops q sn ov) (mkSys [] (replay ops q) sn ov).
Proof.
  revert q. induction ops as [|op ops IH]; intros q; [apply rtc_refl|].
  eapply rtc_l; [apply step_producer|]. rewrite replay_cons. apply IH.
Qed.

Lemma consumer_run q sn :
  exists s, rtc step (mkSys [] q sn false) s /\ stuck s.
Proof.
  destruct q as [its st]. revert sn.
  induction its as [|v its IH]; intros sn.
  - destruct st.
    + exists (mkSys [] (mk [] Open) sn false). split; [apply rtc_refl|].
      intros s' Hs. inversion Hs; subst; unfold next in *; simpl in *; congruence.
    + eexists. split; [eapply rtc_once, step_end; reflexivity|].
      intros s' Hs. inversion Hs.
    + eexists. split; [eapply rtc_once, step_raise; reflexivity|].
      intros s' Hs. inversion Hs.
  - destruct (IH (sn ++ [Got v])) as (s & Hrun & Hst).
    exists s. split; [|done].
    eapply rtc_l; [|exact Hrun]. by apply step_item.
Qed.

(** Some interleaving does end. *)
Lemma some_schedule_ends ops : exists s, rtc step (init ops) s /\ stuck s.
Proof.
  destruct (consumer_run (replay ops new) []) as (s & Hrun & Hst).
  exists s. split; [|done].
  eapply rtc_trans; [apply producer_run|exact Hrun].
Qed.
End QueueFacts.

End AsyncQueue.

(** ** The validated event reader ([src/browser/readEventSourceStream.ts]) *)
Module Reader.
Import AsyncQueue.

(** One decoded server-sent event, as the SSE parser hands it over. *)
Record Frame : Type :=
  mkFrame { event : option string; data : string; id : option string; retry : option Z }.

(** How the iteration over the decoded events finishes: it is done, or
    the underlying read (or the decoder) throws. *)
Inductive Ending : Type :=
| Done
| Throws (e : error).

(** What [parseEventSourceStream({ stream })] settles to: a rejection, or
    the events together with the way their iteration finishes. *)
Inductive Setup : Type :=
| Rejected (e : error)
| Resolved (events : list Frame) (ending : Ending).

(** The result object of [safeParseJSON]:
    [{ success: true, data }] or [{ success: false, error }]. *)
Inductive ParseResult (T : Type) : Type :=
| Success (data : T)
| Failure (error : error).
Arguments Success {T} data.
Arguments Failure {T} error.

(** The calls the reader makes on the objects it was given or created,
    in the order it makes them. *)
Inductive Call (T : Type) : Type :=
| Reported (e : error)
| QPush (v : T)
| QClose.
Arguments Reported {T} e.
Arguments QPush {T} v.
Arguments QClose {T}.

Section Reader.
Context {T H Schema Stream : Type}.

(** [../core/schema/parseJSON.js] and
    [../util/streaming/parseEventSourceStream.js] are not part of the
    sources: the reader is embedded over any such pair. *)
Variable safeParseJSON : string -> Schema -> ParseResult T.
Variable parseEventSourceStream : Stream -> Setup.

(** [ErrorHandler = (error: unknown) => void]: a callback with state of
    its own.  [Some e] is the callback throwing [e]. *)
Definition ErrorHandler : Type := error -> H -> option error * H.

Record World : Type :=
  mkWorld { output : AsyncQueue.t T; hstate : H; trace : list (Call T) }.

(** Computations that may throw and that act on the world. *)
Definition M (A : Type) : Type := World -> (error + A) * World.

Definition ret {A} (a : A) : M A := fun w => (inr a, w).
Definition throw {A} (e : error) : M A := fun w => (inl e, w).
Definition bind {A B} (m : M A) (k : A -> M B) : M B :=
  fun w =>
    match m w with
    | (inr a, w') => k a w'
    | (inl e, w') => (inl e, w')
    end.

(** [try { body } catch (error) { handler } finally { final }] *)
Definition try_catch_finally (body : M unit) (handler : error -> M unit)
    (final : M unit) : M unit :=
  fun w =>
    let '(r1, w1) := body w in
    let '(r2, w2) :=
      match r1 with
      | inr tt => (inr tt, w1)
      | inl e => handler e w1
      end in
    match final w2 with
    | (inl e, w3) => (inl e, w3)
    | (inr _, w3) => (r2, w3)
    end.

(** [promise.then(on_fulfilled).catch(on_rejected)]; a final [inl e] is
    a rejection nobody handles. *)
Definition then_catch {A} (settled : error + A) (on_fulfilled : A -> M unit)
    (on_rejected : error -> M unit) : M unit :=
  fun w =>
    let '(r, w1) :=
      match settled with
      | inr a => on_fulfilled a w
      | inl e => (inl e, w)
      end in
    match r with
    | inr tt => (inr tt, w1)
    | inl e => on_rejected e w1
    end.

(** [errorHandler?.(error)] *)
Definition call (errorHandler : option ErrorHandler) (e : error) : M unit :=
  fun w =>
    match errorHandler with
    | None => (inr tt, w)
    | Some handler =>
        let '(thrown, h') := handler e (hstate w) in
        let w' := mkWorld (output w) h' (trace w ++ [Reported e]) in
        match thrown with
        | None => (inr tt, w')
        | Some e' => (inl e', w')
        end
    end.

(** [queue.push(value)] *)
Definition queue_push (v : T) : M unit :=
  fun w =>
    match push v (output w) with
    | inr q' => (inr tt, mkWorld q' (hstate w) (trace w ++ [QPush v]))
    | inl e => (inl e, mkWorld (output w) (hstate w) (trace w ++ [QPush v]))
    end.

(** [queue.close()] *)
Definition queue_close : M unit :=
  fun w => (inr tt, mkWorld (close (output w)) (hstate w) (trace w ++ [QClose])).

(** [for await (const event of events) { body }] *)
Fixpoint for_await (events : list Frame) (ending : Ending)
    (body : Frame -> M unit) : M unit :=
  match events with
  | [] =>
      match ending with
      | Done => ret tt
      | Throws e => throw e
      end
  | event :: rest => bind (body event) (fun _ => for_await rest ending body)
  end.

(** The body of the loop, lines 23 to 30. *)
Definition on_event (schema : Schema) (errorHandler : option ErrorHandler)
    (event : Frame) : M unit :=
  let validationResult := safeParseJSON (data event) schema in
  match validationResult with
  | Failure error => call errorHandler error (* continue *)
  | Success data => queue_push data
  end.

(** The promise chain started by [readEventSourceStream], lines 19 to 41. *)
Definition read_loop (stream : Stream) (schema : Schema)
    (errorHandler : option ErrorHandler) : M unit :=
  then_catch
    (match parseEventSourceStream stream with
     | Rejected e => inl e
     | Resolved events ending => inr (events, ending)
     end)
    (fun '(events, ending) =>
       try_catch_finally
         (for_await events ending (on_event schema errorHandler))
         (fun error => call errorHandler error)
         queue_close)
    (fun error => bind (call errorHandler error) (fun _ => queue_close)).

(** [readEventSourceStream({ stream, schema, errorHandler })]: creates
    the queue, starts the chain and returns the queue.  The result here
    is the world once the chain has run to its end, with the rejection
    (if any) that nobody handled. *)
Definition readEventSourceStream (stream : Stream) (schema : Schema)
    (errorHandler : option ErrorHandler) (h0 : H) : (error + unit) * World :=
  read_loop stream schema errorHandler (mkWorld new h0 []).

(** *** Reading a trace *)

Definition queue_op (c : Call T) : option (Op T) :=
  match c with
  | QPush v => Some (Push v)
  | QClose => Some Close
  | Reported _ => None
  end.

Definition queue_ops (tr : list (Call T)) : list (Op T) := omap queue_op tr.

Definition handler_calls (tr : list (Call T)) : list error :=
  omap (fun c => match c with Reported e => Some e | _ => None end) tr.

(** The sequence the consumer of the returned queue observes. *)
Definition consumer_view (w : World) : list (Signal T) :=
  observe (queue_ops (trace w)).

Definition valid_data (schema : Schema) (events : list Frame) : list T :=
  omap (fun ev => match safeParseJSON (data ev) schema with
                  | Success d => Some d
                  | Failure _ => None
                  end) events.

Definition invalid_errors (schema : Schema) (events : list Frame) : list error :=
  omap (fun ev => match safeParseJSON (data ev) schema with
                  | Success _ => None
                  | Failure e => Some e
                  end) events.

Definition ending_error (ending : Ending) : list error :=
  match ending with
  | Done => []
  | Throws e => [e]
  end.

(** The reports of [errs], when there is a callback to report to. *)
Definition report_calls (errorHandler : option ErrorHandler) (errs : list error)
  : list (Call T) :=
  match errorHandler with
  | Some _ => map Reported errs
  | None => []
  end.

(** What the loop calls when every callback invocation returns: one call
    per event, a push for a valid payload and a report (when there is a
    callback) for an invalid one. *)
Definition event_calls (schema : Schema) (errorHandler : option ErrorHandler)
    (ev : Frame) : list (Call T) :=
  match safeParseJSON (data ev) schema with
  | Success d => [QPush d]
  | Failure e => report_calls errorHandler [e]
  end.

Definition loop_calls (schema : Schema) (errorHandler : option ErrorHandler)
    (events : list Frame) : list (Call T) :=
  concat (map (event_calls schema errorHandler) events).

(** The state of the callback after it was called on [errs] in turn. *)
Definition hstate_after (errorHandler : option ErrorHandler) (errs : list error)
    (h : H) : H :=
  match errorHandler with
  | Some handler => fold_left (fun h e => snd (handler e h)) errs h
  | None => h
  end.

(** The trace stays in step with the queue. *)
Definition consistent (w : World) : Prop :=
  output w = replay (queue_ops (trace w)) new.

Definition events_of (setup : Setup) : list Frame :=
  match setup with
  | Rejected _ => []
  | Resolved events _ => events
  end.

(** The values among what the consumer observes. *)
Definition received (obs : list (Signal T)) : list T :=
  omap (fun sig => match sig with Got v => Some v | _ => None end) obs.

Definition preserves {A} (m : M A) : Prop :=
  forall w, consistent w -> consistent (snd (m w)).

(** The callback (when there is one) returns normally whenever called. *)
Definition returns (errorHandler : option ErrorHandler) : Prop :=
  match errorHandler with
  | None => True
  | Some handler => forall e h, fst (handler e h) = None
  end.

(** The callback returns from the calls that tell it of [errs] in turn,
    starting in state [h]; what it does when called otherwise is left
    open. *)
Fixpoint handler_returns_on (handler : ErrorHandler) (errs : list error) (h : H) : Prop :=
  match errs with
  | [] => True
  | e :: rest =>
      fst (handler e h) = None /\ handler_returns_on handler rest (snd (handler e h))
  end.

Definition returns_on (errorHandler : option ErrorHandler) (errs : list error) (h : H)
  : Prop :=
  match errorHandler with
  | None => True
  | Some handler => handler_returns_on handler errs h
  end.

(** The values handed to [queue.push], in the order of the calls. *)
Definition pushed (tr : list (Call T)) : list T :=
  omap (fun c => match c with QPush v => Some v | _ => None end) tr.

(** The failure of the underlying stream, if there is one: the rejection
    of the set-up promise, or what the iteration over the events throws. *)
Definition failure_of (setup : Setup) : option error :=
  match setup with
  | Rejected e => Some e
  | Resolved _ (Throws e) => Some e
  | Resolved _ Done => None
  end.

End Reader.

Section ReaderFacts.
Context {T H Schema Stream : Type}.
Variable safeParseJSON : string -> Schema -> ParseResult T.
Variable parseEventSourceStream : Stream -> Setup.
Implicit Types (w : @World T H) (errorHandler : option (@ErrorHandler H))
  (events : list Frame) (schema : Schema).

Lemma queue_ops_app (tr1 tr2 : list (Call T)) :
  queue_ops (tr1 ++ tr2) = queue_ops tr1 ++ queue_ops tr2.
Proof. apply omap_app. Qed.

Lemma handler_calls_app (tr1 tr2 : list (Call T)) :
  handler_calls (tr1 ++ tr2) = handler_calls tr1 ++ handler_calls tr2.
Proof. apply omap_app. Qed.

Lemma valid_data_app schema events1 events2 :
  valid_data safeParseJSON schema (events1 ++ events2) =
  valid_data safeParseJSON schema events1 ++ valid_data safeParseJSON schema events2.
Proof. apply omap_app. Qed.

Lemma invalid_errors_app schema events1 events2 :
  invalid_errors safeParseJSON schema (events1 ++ events2) =
  invalid_errors safeParseJSON schema events1 ++ invalid_errors safeParseJSON schema events2.
Proof. apply omap_app. Qed.

Lemma hstate_after_app errorHandler errs1 errs2 (h : H) :
  hstate_after errorHandler (errs1 ++ errs2) h =
  hstate_after errorHandler errs2 (hstate_after errorHandler errs1 h).
Proof. destruct errorHandler; [apply fold_left_app|done]. Qed.

Lemma report_calls_app errorHandler errs1 errs2 :
  @report_calls T H errorHandler (errs1 ++ errs2) =
  report_calls errorHandler errs1 ++ report_calls errorHandler errs2.
Proof. destruct errorHandler; [apply map_app|done]. Qed.

Lemma valid_data_cons schema ev events :
  valid_data safeParseJSON schema (ev :: events) =
  match safeParseJSON (data ev) schema with
  | Success d => d :: valid_data safeParseJSON schema events
  | Failure _ => valid_data safeParseJSON schema events
  end.
Proof. unfold valid_data. simpl. by destruct (safeParseJSON (data ev) schema). Qed.

Lemma invalid_errors_cons schema ev events :
  invalid_errors safeParseJSON schema (ev :: events) =
  match safeParseJSON (data ev) schema with
  | Success _ => invalid_errors safeParseJSON schema events
  | Failure e => e :: invalid_errors safeParseJSON schema events
  end.
Proof. unfold invalid_errors. simpl. by destruct (safeParseJSON (data ev) schema). Qed.

Lemma loop_calls_cons schema errorHandler ev events :
  loop_calls safeParseJSON schema errorHandler (ev :: events) =
  event_calls safeParseJSON schema errorHandler ev ++
  loop_calls safeParseJSON schema errorHandler events.
Proof. reflexivity. Qed.

(** *** A callback that returns *)

Lemma call_returns errorHandler e w :
  returns errorHandler ->
  call errorHandler e w =
    (inr tt, mkWorld (output w) (hstate_after errorHandler [e] (hstate w))
                     (trace w ++ report_calls errorHandler [e])).
Proof.
  intros Hr. destruct w as [q h tr]. destruct errorHandler as [f|]; simpl.
  - specialize (Hr e h). destruct (f e h) as [thrown h']; simpl in *. by subst.
  - by rewrite app_nil_r.
Qed.

Lemma for_await_returns schema errorHandler events ending w :
  returns errorHandler ->
  status (output w) = Open ->
  for_await events ending (on_event safeParseJSON schema errorHandler) w =
    (match ending with Done => inr tt | Throws e => inl e end,
     mkWorld (mk (items (output w) ++ valid_data safeParseJSON schema events) Open)
             (hstate_after errorHandler (invalid_errors safeParseJSON schema events) (hstate w))
             (trace w ++ loop_calls safeParseJSON schema errorHandler events)).
Proof.
  intros Hr. revert w.
  induction events as [|ev events IH]; intros [[its st] h tr] Hst; simpl in Hst; subst st.
  - cbn. rewrite !app_nil_r.
    replace (hstate_after errorHandler [] h) with h by (by destruct errorHandler).
    by destruct ending.
  - cbn [for_await]. unfold bind at 1, on_event at 1.
    rewrite valid_data_cons, invalid_errors_cons, loop_calls_cons.
    unfold event_calls.
    destruct (safeParseJSON (data ev) schema) as [d|e].
    + cbn. rewrite IH by done. cbn. by rewrite <- !app_assoc.
    + rewrite call_returns by done. rewrite IH by done. cbn [output hstate trace items].
      rewrite <- app_assoc.
      change (e :: invalid_errors safeParseJSON schema events)
        with ([e] ++ invalid_errors safeParseJSON schema events).
      by rewrite hstate_after_app.
Qed.

Lemma queue_ops_report errorHandler errs :
  queue_ops (@report_calls T H errorHandler errs) = [].
Proof.
  destruct errorHandler; [|done]. induction errs; [done|]. by cbn.
Qed.

Lemma handler_calls_report errorHandler errs :
  handler_calls (@report_calls T H errorHandler errs) =
  match errorHandler with Some _ => errs | None => [] end.
Proof.
  destruct errorHandler as [f|]; [|done]. induction errs as [|e errs IH]; [done|].
  cbn. f_equal. exact IH.
Qed.

Lemma queue_ops_loop schema errorHandler events :
  queue_ops (loop_calls safeParseJSON schema errorHandler events) =
  map Push (valid_data safeParseJSON schema events).
Proof.
  induction events as [|ev events IH]; [done|].
  rewrite loop_calls_cons, valid_data_cons, queue_ops_app, IH. unfold event_calls.
  destruct (safeParseJSON (data ev) schema); [done|].
  by rewrite queue_ops_report.
Qed.

Lemma handler_calls_loop schema errorHandler events :
  handler_calls (loop_calls safeParseJSON schema errorHandler events) =
  match errorHandler with
  | Some _ => invalid_errors safeParseJSON schema events
  | None => []
  end.
Proof.
  induction events as [|ev events IH]; [by destruct errorHandler|].
  rewrite loop_calls_cons, invalid_errors_cons, handler_calls_app, IH. unfold event_calls.
  destruct (safeParseJSON (data ev) schema); [done|].
  rewrite handler_calls_report. by destruct errorHandler.
Qed.

(** With a callback that returns, the whole chain is determined. *)
Lemma read_resolved_returns stream schema errorHandler (h0 : H) events ending :
  parseEventSourceStream stream = Resolved events ending ->
  returns errorHandler ->
  readEventSourceStream safeParseJSON parseEventSourceStream stream schema errorHandler h0 =
    (inr tt,
     mkWorld (mk (valid_data safeParseJSON schema events) Closed)
             (hstate_after errorHandler
                (invalid_errors safeParseJSON schema events ++ ending_error ending) h0)
             (loop_calls safeParseJSON schema errorHandler events ++
              report_calls errorHandler (ending_error ending) ++ [QClose])).
Proof.
  intros Hs Hr. unfold readEventSourceStream, read_loop, then_catch. rewrite Hs.
  unfold try_catch_finally. rewrite for_await_returns by done.
  rewrite hstate_after_app. cbn [output hstate trace items app].
  destruct ending as [|e]; cbn [ending_error].
  - unfold queue_close, close. cbn.
    replace (hstate_after errorHandler [] _) with
      (hstate_after errorHandler (invalid_errors safeParseJSON schema events) h0)
      by (by destruct errorHandler).
    replace (report_calls errorHandler []) with (@nil (Call T)) by (by destruct errorHandler).
    done.
  - rewrite call_returns by done. unfold queue_close, close. cbn.
    by rewrite <- app_assoc.
Qed.

Lemma read_rejected_returns stream schema errorHandler (h0 : H) e :
  parseEventSourceStream stream = Rejected e ->
  returns errorHandler ->
  readEventSourceStream safeParseJSON parseEventSourceStream stream schema errorHandler h0 =
    (inr tt,
     mkWorld (mk [] Closed) (hstate_after errorHandler [e] h0)
             (report_calls errorHandler [e] ++ [QClose])).
Proof.
  intros Hs Hr. unfold readEventSourceStream, read_loop, then_catch. rewrite Hs.
  unfold bind. rewrite call_returns by done. reflexivity.
Qed.

(** *** The trace and the queue agree *)

Lemma consistent_start (h0 : H) : consistent (mkWorld (@new T) h0 []).
Proof. reflexivity. Qed.

Lemma preserves_ret {A} (a : A) : preserves (@ret T H A a).
Proof. by intros w Hw. Qed.

Lemma preserves_throw {A} e : preserves (@throw T H A e).
Proof. by intros w Hw. Qed.

Lemma preserves_bind {A B} (m : M A) (k : A -> M B) :
  preserves m -> (forall a, preserves (k a)) -> preserves (@bind T H A B m k).
Proof.
  intros Hm Hk w Hw. unfold bind. specialize (Hm w Hw).
  destruct (m w) as [[e|a] w']; [done|]. by apply Hk.
Qed.

Lemma preserves_call errorHandler e : preserves (@call T H errorHandler e).
Proof.
  intros [q h tr] Hw. unfold call, consistent in *. destruct errorHandler as [f|]; [|done].
  cbn [output trace hstate snd] in *. destruct (f e h) as [[e'|] h'];
    cbn [output trace hstate snd]; by rewrite queue_ops_app, app_nil_r.
Qed.

Lemma preserves_push (v : T) : preserves (@queue_push T H v).
Proof.
  intros [q h tr] Hw. unfold queue_push, consistent in *. cbn [output trace hstate snd] in *.
  destruct (push v q) as [e|q'] eqn:E; cbn [output trace hstate snd];
    rewrite queue_ops_app, replay_app, <- Hw; cbn; by rewrite E.
Qed.

Lemma preserves_close : preserves (@queue_close T H).
Proof.
  intros [q h tr] Hw. unfold queue_close, consistent in *. cbn [output trace hstate snd] in *.
  by rewrite queue_ops_app, replay_app, <- Hw.
Qed.

Lemma preserves_try (body : M unit) (handler : error -> M unit) (final : M unit) :
  preserves body -> (forall e, preserves (handler e)) -> preserves final ->
  preserves (@try_catch_finally T H body handler final).
Proof.
  intros Hb Hh Hf w Hw. unfold try_catch_finally. specialize (Hb w Hw).
  destruct (body w) as [[e|[]] w1]; cbn in Hb.
  - specialize (Hh e w1 Hb). destruct (handler e w1) as [r2 w2]. cbn in Hh.
    specialize (Hf w2 Hh). by destruct (final w2) as [[e3|u] w3].
  - specialize (Hf w1 Hb). by destruct (final w1) as [[e3|u] w3].
Qed.

Lemma preserves_then_catch {A} (settled : error + A) (f : A -> M unit) (g : error -> M unit) :
  (forall a, preserves (f a)) -> (forall e, preserves (g e)) ->
  preserves (@then_catch T H A settled f g).
Proof.
  intros Hf Hg w Hw. unfold then_catch. destruct settled as [e|a].
  - by apply Hg.
  - specialize (Hf a w Hw). destruct (f a w) as [[e|[]] w1]; [|done]. by apply Hg.
Qed.

Lemma preserves_for_await events ending (body : Frame -> M unit) :
  (forall ev, preserves (body ev)) -> preserves (@for_await T H events ending body).
Proof.
  intros Hb. induction events as [|ev events IH]; cbn.
  - destruct ending; [apply preserves_ret|apply preserves_throw].
  - apply preserves_bind; [apply Hb|by intros _].
Qed.

Lemma preserves_on_event schema errorHandler ev :
  preserves (on_event safeParseJSON schema errorHandler ev).
Proof.
  unfold on_event. destruct (safeParseJSON (data ev) schema);
    [apply preserves_push|apply preserves_call].
Qed.

Lemma preserves_read_loop stream schema errorHandler :
  preserves (read_loop safeParseJSON parseEventSourceStream stream schema errorHandler).
Proof.
  unfold read_loop. apply preserves_then_catch.
  - intros [events ending]. apply preserves_try.
    + apply preserves_for_await, preserves_on_event.
    + intros e. apply preserves_call.
    + apply preserves_close.
  - intros e. apply preserves_bind; [apply preserves_call|intros _; apply preserves_close].
Qed.

Lemma trace_sound stream schema errorHandler (h0 : H) :
  consistent (snd (readEventSourceStream safeParseJSON parseEventSourceStream
                     stream schema errorHandler h0)).
Proof. apply preserves_read_loop, consistent_start. Qed.

Lemma consumer_view_drain w : consistent w -> consumer_view w = drain (output w).
Proof. intros Hw. unfold consumer_view, observe. by rewrite <- Hw. Qed.


(** *** Any callback, also one that throws *)

Lemma call_output errorHandler e w :
  output (snd (call errorHandler e w)) = output w.
Proof.
  unfold call. destruct errorHandler as [f|]; [|done].
  by destruct (f e (hstate w)) as [[e'|] h'].
Qed.

Lemma for_await_output schema errorHandler events ending w :
  status (output w) = Open ->
  exists n,
    (n <= length events)%nat /\
    output (snd (for_await events ending (on_event safeParseJSON schema errorHandler) w)) =
      mk (items (output w) ++ valid_data safeParseJSON schema (take n events)) Open.
Proof.
  revert w. induction events as [|ev events IH]; intros [[its st] h tr] Hst;
    cbn [output status items] in *; subst st.
  - exists 0%nat. split; [done|]. cbn. rewrite app_nil_r. by destruct ending.
  - cbn [for_await]. unfold bind. unfold on_event at 1.
    destruct (safeParseJSON (data ev) schema) as [d|e] eqn:E.
    + unfold queue_push, push. cbn [output status items hstate trace].
      edestruct (IH (mkWorld (mk (its ++ [d]) Open) h (tr ++ [QPush d])))
        as (n & Hn & Ho); [done|].
      exists (S n). split; [cbn; lia|].
      rewrite Ho. cbn [output items take]. rewrite valid_data_cons, E.
      by rewrite <- app_assoc.
    + pose proof (call_output errorHandler e (mkWorld (mk its Open) h tr)) as Hc.
      destruct (call errorHandler e (mkWorld (mk its Open) h tr)) as [[e'|[]] w1];
        cbn [snd output] in Hc.
      * exists 0%nat. split; [cbn; lia|]. cbn. by rewrite app_nil_r.
      * edestruct (IH w1) as (n & Hn & Ho); [by rewrite Hc|].
        exists (S n). split; [cbn; lia|].
        rewrite Ho, Hc. cbn [output items take]. by rewrite valid_data_cons, E.
Qed.

(** Once the events are there the queue ends up closed, whatever the
    callback does. *)
Lemma read_resolved_output stream schema errorHandler (h0 : H) events ending :
  parseEventSourceStream stream = Resolved events ending ->
  exists n,
    (n <= length events)%nat /\
    output (snd (readEventSourceStream safeParseJSON parseEventSourceStream
                   stream schema errorHandler h0)) =
      mk (valid_data safeParseJSON schema (take n events)) Closed.
Proof.
  intros Hs. unfold readEventSourceStream, read_loop, then_catch. rewrite Hs.
  unfold try_catch_finally.
  destruct (for_await_output schema errorHandler events ending (mkWorld new h0 []))
    as (n & Hn & Ho); [done|].
  exists n. split; [done|].
  destruct (for_await events ending _ _) as [r1 w1].
  unfold new in Ho. cbn [snd output items app] in Ho.
  assert (Hclosed : forall w, output w = mk (valid_data safeParseJSON schema (take n events)) Open ->
            output (snd (@queue_close T H w)) =
              mk (valid_data safeParseJSON schema (take n events)) Closed).
  { intros w Hw. unfold queue_close, close. cbn. by rewrite Hw. }
  destruct r1 as [e|[]].
  - pose proof (call_output errorHandler e w1) as Hc.
    destruct (call errorHandler e w1) as [r2 w2]. cbn [snd] in Hc.
    specialize (Hclosed w2 ltac:(congruence)).
    unfold queue_close in *. cbn [snd output] in *.
    destruct r2 as [e2|[]]; [|done].
    unfold bind.
    pose proof (call_output errorHandler e2
      (mkWorld (close (output w2)) (hstate w2) (trace w2 ++ [QClose]))) as Hc2.
    destruct (call errorHandler e2 _) as [[e3|[]] w3]; cbn [snd output] in *.
    + congruence.
    + rewrite Hc2, Hclosed. reflexivity.
  - by apply Hclosed.
Qed.

Lemma read_rejected_output stream schema errorHandler (h0 : H) e :
  parseEventSourceStream stream = Rejected e ->
  items (output (snd (readEventSourceStream safeParseJSON parseEventSourceStream
                        stream schema errorHandler h0))) = [].
Proof.
  intros Hs. unfold readEventSourceStream, read_loop, then_catch. rewrite Hs.
  unfold bind.
  pose proof (call_output errorHandler e (mkWorld new h0 [])) as Hc.
  destruct (call errorHandler e _) as [[e3|[]] w3]; cbn [snd output] in *.
  - by rewrite Hc.
  - unfold queue_close, close. cbn [snd output]. by rewrite Hc.
Qed.

Lemma queue_ops_plain (tr : list (Call T)) :
  Forall (fun op => plain op = true) (queue_ops tr).
Proof.
  induction tr as [|c tr IH]; [constructor|].
  destruct c; cbn; [done|by constructor|by constructor].
Qed.

Lemma received_drain (q : AsyncQueue.t T) : received (drain q) = items q.
Proof.
  unfold drain, received. rewrite omap_app.
  replace (omap _ (match status q with Open => [] | Closed => [Ended] | ClosedWithError e => [Failed e] end))
    with (@nil T) by (by destruct (status q)).
  rewrite app_nil_r. induction (items q) as [|v vs IH]; [done|]. cbn. by f_equal.
Qed.


Lemma consumer_view_closed w vs :
  consistent w -> output w = mk vs Closed -> consumer_view w = map Got vs ++ [Ended].
Proof. intros Hc Ho. rewrite consumer_view_drain by done. by rewrite Ho. Qed.

(** The queue ends up closed on every run but one: a rejected set-up
    whose report makes the callback throw. *)
Lemma read_closes stream schema errorHandler (h0 : H) :
  (exists events ending, parseEventSourceStream stream = Resolved events ending) \/
  returns errorHandler ->
  let w := snd (readEventSourceStream safeParseJSON parseEventSourceStream
                  stream schema errorHandler h0) in
  status (output w) = Closed /\ last (consumer_view w) = Some Ended.
Proof.
  intros Hcase w.
  assert (Hst : status (output w) = Closed).
  { destruct Hcase as [(events & ending & Hs)|Hr].
    - destruct (read_resolved_output stream schema errorHandler h0 events ending Hs)
        as (n & _ & Ho). subst w. by rewrite Ho.
    - subst w. destruct (parseEventSourceStream stream) as [e|events ending] eqn:Hs.
      + by rewrite (read_rejected_returns _ _ _ _ e).
      + by rewrite (read_resolved_returns _ _ _ _ events ending). }
  split; [done|].
  subst w. rewrite consumer_view_drain by apply trace_sound.
  unfold drain. rewrite Hst. by rewrite last_snoc.
Qed.

(** *** What was pushed *)

Lemma pushed_app (tr1 tr2 : list (Call T)) : pushed (tr1 ++ tr2) = pushed tr1 ++ pushed tr2.
Proof. apply omap_app. Qed.

Lemma pushed_report errorHandler errs : pushed (@report_calls T H errorHandler errs) = [].
Proof. destruct errorHandler; [|done]. induction errs; [done|]. by cbn. Qed.

Lemma pushed_loop schema errorHandler events :
  pushed (loop_calls safeParseJSON schema errorHandler events) =
  valid_data safeParseJSON schema events.
Proof.
  induction events as [|ev events IH]; [done|].
  rewrite loop_calls_cons, valid_data_cons, pushed_app, IH. unfold event_calls.
  destruct (safeParseJSON (data ev) schema); [done|].
  by rewrite pushed_report.
Qed.

Lemma call_pushed errorHandler e w :
  pushed (trace (snd (call errorHandler e w))) = pushed (trace w).
Proof.
  unfold call. destruct errorHandler as [f|]; [|done].
  destruct (f e (hstate w)) as [[e'|] h']; cbn [snd trace];
    rewrite pushed_app; cbn; by rewrite app_nil_r.
Qed.

Lemma returns_returns_on errorHandler errs (h : H) :
  returns errorHandler -> returns_on errorHandler errs h.
Proof.
  destruct errorHandler as [f|]; [|done]. intros Hr. cbn.
  revert h. induction errs as [|e errs IH]; intros h; [done|]. by split.
Qed.

Lemma call_returns_on errorHandler e w :
  returns_on errorHandler [e] (hstate w) ->
  call errorHandler e w =
    (inr tt, mkWorld (output w) (hstate_after errorHandler [e] (hstate w))
                     (trace w ++ report_calls errorHandler [e])).
Proof.
  intros Hr. destruct w as [q h tr]. destruct errorHandler as [f|]; simpl.
  - destruct Hr as [Hr _]. cbn in Hr. destruct (f e h) as [thrown h']; simpl in *. by subst.
  - by rewrite app_nil_r.
Qed.

(** The loop runs to the end of the events when the callback returns from
    the calls made for the invalid frames. *)
Lemma for_await_returns_on schema errorHandler events ending w :
  returns_on errorHandler (invalid_errors safeParseJSON schema events) (hstate w) ->
  status (output w) = Open ->
  for_await events ending (on_event safeParseJSON schema errorHandler) w =
    (match ending with Done => inr tt | Throws e => inl e end,
     mkWorld (mk (items (output w) ++ valid_data safeParseJSON schema events) Open)
             (hstate_after errorHandler (invalid_errors safeParseJSON schema events) (hstate w))
             (trace w ++ loop_calls safeParseJSON schema errorHandler events)).
Proof.
  revert w.
  induction events as [|ev events IH]; intros [[its st] h tr] Hr Hst; simpl in Hst; subst st.
  - cbn. rewrite !app_nil_r.
    replace (hstate_after errorHandler [] h) with h by (by destruct errorHandler).
    by destruct ending.
  - cbn [for_await]. unfold bind at 1, on_event at 1. cbn [hstate] in Hr.
    rewrite invalid_errors_cons in Hr.
    rewrite valid_data_cons, invalid_errors_cons, loop_calls_cons.
    unfold event_calls.
    destruct (safeParseJSON (data ev) schema) as [d|e].
    + cbn. rewrite IH by done. cbn. by rewrite <- !app_assoc.
    + rewrite call_returns_on by (destruct errorHandler; [split; [apply Hr|done]|done]).
      rewrite IH; [|destruct errorHandler; [apply Hr|done]|done].
      cbn [output hstate trace items]. rewrite <- app_assoc.
      change (e :: invalid_errors safeParseJSON schema events)
        with ([e] ++ invalid_errors safeParseJSON schema events).
      by rewrite hstate_after_app.
Qed.

(** Whatever the callback does, the loop pushes the valid payloads of an
    initial stretch of the events, and the queue holds what was pushed. *)
Lemma for_await_queued schema errorHandler events ending : forall w r w',
  status (output w) = Open ->
  for_await events ending (on_event safeParseJSON schema errorHandler) w = (r, w') ->
  exists n,
    (n <= length events)%nat /\
    output w' = mk (items (output w) ++ valid_data safeParseJSON schema (take n events)) Open /\
    pushed (trace w') = pushed (trace w) ++ valid_data safeParseJSON schema (take n events).
Proof.
  induction events as [|ev events IH]; intros [[its st] h tr] r w' Hst Hrun;
    cbn [output status items trace] in *; subst st.
  - exists 0%nat. split; [done|]. cbn in Hrun. rewrite !app_nil_r.
    destruct ending; injection Hrun as <- <-; by split.
  - cbn [for_await] in Hrun. unfold bind in Hrun. unfold on_event at 1 in Hrun.
    destruct (safeParseJSON (data ev) schema) as [d|e] eqn:E.
    + unfold queue_push, push in Hrun. cbn [output status items hstate trace] in Hrun.
      apply IH in Hrun as (n & Hn & Ho & Hp); [|done].
      exists (S n). split; [cbn; lia|]. cbn [output items trace take] in *.
      rewrite valid_data_cons, E. rewrite Ho, Hp, pushed_app. cbn.
      by rewrite <- !app_assoc.
    + pose proof (call_output errorHandler e (mkWorld (mk its Open) h tr)) as Hc.
      pose proof (call_pushed errorHandler e (mkWorld (mk its Open) h tr)) as Hq.
      destruct (call errorHandler e (mkWorld (mk its Open) h tr)) as [[e'|[]] w1];
        cbn [snd output trace] in Hc, Hq.
      * injection Hrun as <- <-. exists 0%nat. split; [cbn; lia|]. cbn.
        rewrite !app_nil_r. by split.
      * apply IH in Hrun as (n & Hn & Ho & Hp); [|by rewrite Hc].
        exists (S n). split; [cbn; lia|]. cbn [take].
        rewrite valid_data_cons, E. by rewrite Ho, Hp, Hc, Hq.
Qed.

(** After the loop: the [catch] block, the [finally] block and the
    [.catch] callback add no push, and the queue is closed as it is. *)
Lemma read_resolved_tail stream schema errorHandler (h0 : H) events ending r1 w1 :
  parseEventSourceStream stream = Resolved events ending ->
  for_await events ending (on_event safeParseJSON schema errorHandler) (mkWorld new h0 []) =
    (r1, w1) ->
  status (output w1) = Open ->
  let w := snd (readEventSourceStream safeParseJSON parseEventSourceStream
                  stream schema errorHandler h0) in
  output w = mk (items (output w1)) Closed /\ pushed (trace w) = pushed (trace w1).
Proof.
  intros Hs Hrun Hst w. subst w.
  unfold readEventSourceStream, read_loop, then_catch. rewrite Hs.
  unfold try_catch_finally. rewrite Hrun.
  assert (Hclose : forall w0 : @World T H,
            output w0 = output w1 -> pushed (trace w0) = pushed (trace w1) ->
            output (snd (@queue_close T H w0)) = mk (items (output w1)) Closed /\
            pushed (trace (snd (@queue_close T H w0))) = pushed (trace w1)).
  { intros w0 Ho Hp. unfold queue_close, close. cbn [snd output trace].
    rewrite Ho, Hst, pushed_app, Hp. cbn. by rewrite app_nil_r. }
  destruct r1 as [e|[]].
  - pose proof (call_output errorHandler e w1) as Hc.
    pose proof (call_pushed errorHandler e w1) as Hq.
    destruct (call errorHandler e w1) as [r2 w2]. cbn [snd] in Hc, Hq.
    destruct (Hclose w2 Hc Hq) as [Ho Hp].
    unfold queue_close in *. cbn [snd output trace] in *.
    destruct r2 as [e2|[]]; [|done].
    unfold bind.
    pose proof (call_output errorHandler e2
      (mkWorld (close (output w2)) (hstate w2) (trace w2 ++ [QClose]))) as Hc2.
    pose proof (call_pushed errorHandler e2
      (mkWorld (close (output w2)) (hstate w2) (trace w2 ++ [QClose]))) as Hq2.
    destruct (call errorHandler e2 _) as [[e3|[]] w3]; cbn [snd output trace] in *.
    + by rewrite Hc2, Hq2.
    + rewrite Hc2, Ho, pushed_app, Hq2, Hp. cbn. by rewrite app_nil_r.
  - by apply Hclose.
Qed.

Lemma read_resolved_queued stream schema errorHandler (h0 : H) events ending :
  parseEventSourceStream stream = Resolved events ending ->
  let w := snd (readEventSourceStream safeParseJSON parseEventSourceStream
                  stream schema errorHandler h0) in
  exists n,
    (n <= length events)%nat /\
    output w = mk (valid_data safeParseJSON schema (take n events)) Closed /\
    pushed (trace w) = valid_data safeParseJSON schema (take n events).
Proof.
  intros Hs w.
  destruct (for_await events ending (on_event safeParseJSON schema errorHandler)
              (mkWorld new h0 [])) as [r1 w1] eqn:Hrun.
  destruct (for_await_queued schema errorHandler events ending (mkWorld new h0 []) r1 w1
              eq_refl Hrun)
    as (n & Hn & Ho & Hp).
  cbn [output items trace app] in Ho, Hp.
  destruct (read_resolved_tail stream schema errorHandler h0 events ending r1 w1 Hs Hrun)
    as [Hout Hpushed]; [by rewrite Ho|].
  exists n. split; [done|]. subst w. rewrite Hout, Hpushed, Ho, Hp. by split.
Qed.

Lemma read_resolved_returns_on stream schema errorHandler (h0 : H) events ending :
  parseEventSourceStream stream = Resolved events ending ->
  returns_on errorHandler (invalid_errors safeParseJSON schema events) h0 ->
  let w := snd (readEventSourceStream safeParseJSON parseEventSourceStream
                  stream schema errorHandler h0) in
  output w = mk (valid_data safeParseJSON schema events) Closed /\
  pushed (trace w) = valid_data safeParseJSON schema events.
Proof.
  intros Hs Hr w.
  pose proof (for_await_returns_on schema errorHandler events ending (mkWorld new h0 [])
                Hr eq_refl) as Hrun.
  destruct (read_resolved_tail stream schema errorHandler h0 events ending _ _ Hs Hrun eq_refl)
    as [Hout Hpushed].
  subst w. rewrite Hout, Hpushed. cbn [output items trace app]. by rewrite pushed_loop.
Qed.

(** The reader never closes the queue with an error. *)
Lemma read_status stream schema errorHandler (h0 : H) :
  let w := snd (readEventSourceStream safeParseJSON parseEventSourceStream
                  stream schema errorHandler h0) in
  status (output w) = Open \/ status (output w) = Closed.
Proof.
  intros w. subst w.
  destruct (parseEventSourceStream stream) as [e|events ending] eqn:Hs.
  - unfold readEventSourceStream, read_loop, then_catch. rewrite Hs. unfold bind.
    pose proof (call_output errorHandler e (mkWorld new h0 [])) as Hc.
    destruct (call errorHandler e _) as [[e3|[]] w3]; cbn [snd output] in *.
    + left. by rewrite Hc.
    + right. unfold queue_close, close. cbn [snd output]. by rewrite Hc.
  - right. destruct (read_resolved_output stream schema errorHandler h0 events ending Hs)
      as (n & _ & Ho). by rewrite Ho.
Qed.

Lemma never_failed stream schema errorHandler (h0 : H) e :
  Failed e ∉ consumer_view (snd (readEventSourceStream safeParseJSON parseEventSourceStream
                                    stream schema errorHandler h0)).
Proof.
  rewrite consumer_view_drain by apply trace_sound. unfold drain.
  intros Hin. apply elem_of_app in Hin as [Hin|Hin].
  - apply list_elem_of_fmap in Hin as (v & Hv & _). discriminate.
  - destruct (read_status stream schema errorHandler h0) as [Hst|Hst];
      rewrite Hst in Hin.
    + by apply elem_of_nil in Hin.
    + apply list_elem_of_singleton in Hin. discriminate.
Qed.

(** C1, as the code has it: with an error handler that returns whenever
    it is called, a frame whose data fails JSON parsing or schema validation
    makes the reader call the handler with the failure detail, at that point
    of the run; nothing is pushed for the frame; the frames after it are
    processed as usual, and the queue is closed only when the stream itself
    is over.  The handler has been run on exactly the failures of the run,
    in order, and the queue holds exactly the valid payloads. *)
Theorem invalid_frame_reported_and_skipped
    stream schema (handler : @ErrorHandler H) (h0 : H) before frame after ending err :
  parseEventSourceStream stream = Resolved (before ++ frame :: after) ending ->
  safeParseJSON (data frame) schema = Failure err ->
  (forall e h, fst (handler e h) = None) ->
  let '(outcome, w) := readEventSourceStream safeParseJSON parseEventSourceStream
                         stream schema (Some handler) h0 in
  outcome = inr tt /\
  trace w =
    loop_calls safeParseJSON schema (Some handler) before ++ [Reported err] ++
    loop_calls safeParseJSON schema (Some handler) after ++
    map Reported (ending_error ending) ++ [QClose] /\
  handler_calls (trace w) =
    invalid_errors safeParseJSON schema before ++ [err] ++
    invalid_errors safeParseJSON schema after ++ ending_error ending /\
  hstate w =
    fold_left (fun h e => snd (handler e h))
      (invalid_errors safeParseJSON schema before ++ [err] ++
       invalid_errors safeParseJSON schema after ++ ending_error ending) h0 /\
  queue_ops (trace w) =
    map Push (valid_data safeParseJSON schema before ++
              valid_data safeParseJSON schema after) ++ [Close] /\
  output w =
    mk (valid_data safeParseJSON schema before ++ valid_data safeParseJSON schema after)
       Closed /\
  consumer_view w =
    map Got (valid_data safeParseJSON schema before ++
             valid_data safeParseJSON schema after) ++ [Ended].
Proof.
  intros Hs Hf Hr.
  rewrite (read_resolved_returns _ _ (Some handler) _ _ _ Hs Hr).
  cbn [trace hstate output].
  assert (Hv : valid_data safeParseJSON schema (before ++ frame :: after) =
               valid_data safeParseJSON schema before ++
               valid_data safeParseJSON schema after).
  { by rewrite valid_data_app, valid_data_cons, Hf. }
  assert (Hi : invalid_errors safeParseJSON schema (before ++ frame :: after) =
               invalid_errors safeParseJSON schema before ++ [err] ++
               invalid_errors safeParseJSON schema after).
  { by rewrite invalid_errors_app, invalid_errors_cons, Hf. }
  assert (Hq : queue_ops (loop_calls safeParseJSON schema (Some handler)
                            (before ++ frame :: after) ++
                          report_calls (Some handler) (ending_error ending) ++ [QClose]) =
               map Push (valid_data safeParseJSON schema before ++
                         valid_data safeParseJSON schema after) ++ [Close]).
  { rewrite !queue_ops_app, queue_ops_loop, queue_ops_report, Hv. reflexivity. }
  split; [done|]. split; [|split; [|split; [|split; [|split]]]].
  - unfold loop_calls at 1. rewrite map_app, concat_app. cbn [map concat].
    unfold event_calls at 2. rewrite Hf. cbn [report_calls map].
    fold (loop_calls safeParseJSON schema (Some handler) before).
    fold (loop_calls safeParseJSON schema (Some handler) after).
    by rewrite <- !app_assoc.
  - rewrite !handler_calls_app, handler_calls_loop, handler_calls_report, Hi.
    cbn. by rewrite app_nil_r, <- !app_assoc.
  - unfold hstate_after. by rewrite Hi, <- !app_assoc.
  - exact Hq.
  - by rewrite Hv.
  - unfold consumer_view. cbn [trace]. rewrite Hq.
    by rewrite (observe_pushes_close _ []).
Qed.

(** C2, as the code has it: when the underlying stream fails, be it the
    set-up promise that rejects or the iteration over the decoded events
    that throws, no error signal ever reaches the consumer.  When it is the
    iteration that throws, the queue is closed in the ordinary way whatever
    the error handler does, and the consumer's sequence ends with a plain
    end of sequence.  With a handler that returns whenever called (or
    without one) the thrown value is reported to the handler (if any) right
    before the close, nothing is left unhandled, and the consumer receives
    exactly the values validated before the failure and then the plain end
    of the sequence. *)
Theorem read_failure_reported_then_plain_end
    stream schema errorHandler (h0 : H) e :
  failure_of (parseEventSourceStream stream) = Some e ->
  let '(outcome, w) := readEventSourceStream safeParseJSON parseEventSourceStream
                         stream schema errorHandler h0 in
  let events := events_of (parseEventSourceStream stream) in
  ((forall e', Failed e' ∉ consumer_view w) /\
   (forall e', status (output w) <> ClosedWithError e')) /\
  (parseEventSourceStream stream = Resolved events (Throws e) ->
   status (output w) = Closed /\
   last (consumer_view w) = Some Ended) /\
  (returns errorHandler ->
   outcome = inr tt /\
   trace w = loop_calls safeParseJSON schema errorHandler events ++
             report_calls errorHandler [e] ++ [QClose] /\
   hstate w = hstate_after errorHandler
                (invalid_errors safeParseJSON schema events ++ [e]) h0 /\
   output w = mk (valid_data safeParseJSON schema events) Closed /\
   consumer_view w = map Got (valid_data safeParseJSON schema events) ++ [Ended]).
Proof.
  intros Hfail.
  pose proof (trace_sound stream schema errorHandler h0) as Hc.
  pose proof (read_status stream schema errorHandler h0) as Hstatus.
  pose proof (fun e' => never_failed stream schema errorHandler h0 e') as Hnever.
  pose proof (read_closes stream schema errorHandler h0) as Hcloses.
  pose proof (read_resolved_returns stream schema errorHandler h0) as Hresolved.
  pose proof (read_rejected_returns stream schema errorHandler h0) as Hrejected.
  destruct (readEventSourceStream _ _ _ _ _ _) as [outcome w]. cbn [snd] in *.
  cbv zeta. split; [split; [exact Hnever|]|split].
  - intros e' He'. destruct Hstatus as [Hst|Hst]; congruence.
  - intros Hs. apply Hcloses. left. eauto.
  - intros Hr.
    destruct (parseEventSourceStream stream) as [e1|events [|e1]] eqn:Hs;
      cbn [failure_of events_of] in *; [| done |]; injection Hfail as ->.
    + specialize (Hrejected e eq_refl Hr). injection Hrejected as -> ->.
      split; [done|]. split; [done|]. split; [done|]. split; [done|].
      by apply consumer_view_closed.
    + specialize (Hresolved events (Throws e) eq_refl Hr). injection Hresolved as -> ->.
      split; [done|]. split; [done|]. split; [done|]. split; [done|].
      by apply consumer_view_closed.
Qed.

(** C3, as the code has it: when the stream fails after some events were
    validated and pushed, every interleaving of the reader with the consumer
    delivers all that was pushed, in the order of the pushes, and then a
    plain end of sequence (not an error), whatever the error handler does:
    at any moment the consumer holds an initial part of that sequence, and
    nothing that was queued is lost.  What was pushed is what the queue
    holds: the valid payloads of an initial stretch of the events, and of
    all the events before the failure when the handler returned from its
    calls for the invalid frames (or there is no handler). *)
Theorem queued_events_delivered_before_end
    stream schema errorHandler (h0 : H) events e :
  parseEventSourceStream stream = Resolved events (Throws e) ->
  let w := snd (readEventSourceStream safeParseJSON parseEventSourceStream
                  stream schema errorHandler h0) in
  let queued := pushed (trace w) in
  let delivered := map Got queued ++ [Ended] in
  output w = mk queued Closed /\
  (exists n, (n <= length events)%nat /\
             queued = valid_data safeParseJSON schema (take n events)) /\
  (returns_on errorHandler (invalid_errors safeParseJSON schema events) h0 ->
   queued = valid_data safeParseJSON schema events) /\
  (exists s, rtc step (init (queue_ops (trace w))) s /\ stuck s) /\
  (forall s, rtc step (init (queue_ops (trace w))) s -> seen s `prefix_of` delivered) /\
  (forall s, rtc step (init (queue_ops (trace w))) s -> stuck s -> seen s = delivered).
Proof.
  intros Hs w queued delivered.
  destruct (read_resolved_queued stream schema errorHandler h0 events (Throws e) Hs)
    as (n & Hn & Ho & Hp).
  fold w in Ho, Hp.
  assert (Hout : output w = mk queued Closed) by (subst queued; by rewrite Hp).
  assert (Hobs : observe (queue_ops (trace w)) = delivered).
  { change (consumer_view w = delivered). subst delivered.
    apply consumer_view_closed; [apply trace_sound|exact Hout]. }
  split; [exact Hout|]. split; [by exists n|]. split.
  { intros Hr. subst queued w.
    by destruct (read_resolved_returns_on stream schema errorHandler h0 events (Throws e)
                   Hs Hr) as [_ ->]. }
  split; [apply some_schedule_ends|]. rewrite <- Hobs. split.
  - intros s Hrun. by apply seen_prefix; [apply queue_ops_plain|].
  - intros s Hrun Hstuck. by apply schedule_independent; [apply queue_ops_plain| |].
Qed.

(** C4: the values the consumer receives are the validated payloads of
    an initial stretch of the source events, in source order: a dropped
    frame leaves a gap and nothing is reordered.  When the error handler
    returns whenever called (or is absent) the stretch is the whole
    stream. *)
Theorem order_preserved stream schema errorHandler (h0 : H) :
  let w := snd (readEventSourceStream safeParseJSON parseEventSourceStream
                  stream schema errorHandler h0) in
  let events := events_of (parseEventSourceStream stream) in
  (exists n, (n <= length events)%nat /\
             received (consumer_view w) = valid_data safeParseJSON schema (take n events)) /\
  (returns errorHandler ->
   received (consumer_view w) = valid_data safeParseJSON schema events).
Proof.
  intros w events. subst w events.
  rewrite consumer_view_drain by apply trace_sound. rewrite received_drain.
  destruct (parseEventSourceStream stream) as [e|events ending] eqn:Hs; cbn [events_of].
  - rewrite (read_rejected_output _ _ _ _ e Hs). split; [by exists 0%nat|done].
  - split.
    + destruct (read_resolved_output stream schema errorHandler h0 events ending Hs)
        as (n & Hn & Ho). exists n. by rewrite Ho.
    + intros Hr. by rewrite (read_resolved_returns _ _ _ _ _ _ Hs Hr).
Qed.

(** C6: without an error handler a validation failure raises nothing and
    is dropped without a trace, the remaining frames are still processed,
    and a failure of the stream (or of its set-up) still closes the output
    sequence. *)
Theorem no_handler_drops_silently stream schema (h0 : H) :
  let '(outcome, w) := readEventSourceStream safeParseJSON parseEventSourceStream
                         stream schema None h0 in
  outcome = inr tt /\
  handler_calls (trace w) = [] /\
  hstate w = h0 /\
  status (output w) = Closed /\
  consumer_view w =
    map Got (valid_data safeParseJSON schema (events_of (parseEventSourceStream stream))) ++
    [Ended].
Proof.
  pose proof (trace_sound stream schema None h0) as Hc.
  destruct (parseEventSourceStream stream) as [e|events ending] eqn:Hs; cbn [events_of].
  - rewrite (read_rejected_returns _ _ None _ e Hs I) in *. cbn [snd] in Hc.
    repeat split; try done; try by rewrite (consumer_view_closed _ [] Hc eq_refl).
  - rewrite (read_resolved_returns _ _ None _ _ _ Hs I) in *. cbn [snd] in Hc.
    repeat split; try done;
      try by rewrite (consumer_view_closed _ _ Hc eq_refl).
    cbn [trace]. by rewrite !handler_calls_app, handler_calls_loop.
Qed.

End ReaderFacts.

End Reader.

(** ** The JSON helper ([../core/schema/parseJSON.js], not part of the
    sources) *)
Module ParseJSON.
Import Json Reader.

(** Modelled from the spec: the schema of [../core/schema/Schema.js], a
    single capability
    [validate(raw) -> success-with-typed-value | failure-with-diagnostic]. *)
Definition Schema (T : Type) : Type := json -> error + T.

(** Modelled from the spec: [safeParseJSON] of
    [../core/schema/parseJSON.js] parses the payload as JSON and validates
    the value against the schema; either failure is returned, not thrown. *)
Definition safeParseJSON {T} (text : string) (schema : Schema T) : ParseResult T :=
  match JSON_parse text with
  | None => Failure (JSONParseError text)
  | Some raw =>
      match schema raw with
      | inr value => Success value
      | inl diagnostic => Failure diagnostic
      end
  end.
End ParseJSON.

(** ** Concrete runs of the reader *)
Module Scenarios.
Import Json AsyncQueue Reader ParseJSON.
Local Open Scope string_scope.

(** A stream is given by what [parseEventSourceStream] settles to on it. *)
Definition run {T H} (stream : Setup) (schema : Schema T)
    (errorHandler : option (@ErrorHandler H)) (h0 : H) : (error + unit) * @World T H :=
  readEventSourceStream safeParseJSON (fun s : Setup => s) stream schema errorHandler h0.

Definition sse (text : string) : Frame := mkFrame None text None None.

Definition quote : string := String "034" EmptyString.

(** The text [{"x":1}] and the value it denotes. *)
Definition x_text : string := "{" ++ quote ++ "x" ++ quote ++ ":1}".
Definition x_value : json :=
  JObject [("x", JNumber (S754_finite false 4503599627370496 (-52)))].

(** [z.object({ x: z.number() })] *)
Definition x_schema : Schema json :=
  fun raw =>
    match raw with
    | JObject fields =>
        match get_field "x" fields with
        | Some (JNumber d) => inr (JObject [("x", JNumber d)])
        | _ => inl (TypeValidationError "x: expected number")
        end
    | _ => inl (TypeValidationError "expected object")
    end.

(** A handler that keeps what it is told, and one that throws it back. *)
Definition recorder : @ErrorHandler (list error) := fun e told => (None, (told ++ [e])%list).
Definition rethrow : @ErrorHandler unit := fun e h => (Some e, h).

Definition ends_with_error {T} (obs : list (Signal T)) (e : error) : Prop :=
  last obs = Some (Failed e).

Lemma parse_x_text : JSON_parse x_text = Some x_value.
Proof. vm_compute. reflexivity. Qed.

Lemma parse_not_json : JSON_parse "not-json" = None.
Proof. vm_compute. reflexivity. Qed.

(** A handler that counts its calls and throws back what it is told. *)
Definition rethrow_counting : @ErrorHandler nat := fun e calls => (Some e, S calls).

(** C5, as the code has it: for the events [{"x":1}] and [not-json], in
    either order, a schema that accepts the first and an error handler that
    returns whenever it is called, the queue ends closed holding exactly the
    parsed value, the consumer's sequence is that value followed by the end
    of the sequence, and the handler has been run exactly once, on the parse
    failure of the malformed frame. *)
Theorem one_valid_one_malformed {T H} (schema : Schema T)
    (handler : @ErrorHandler H) (h0 : H) (v : T) :
  schema x_value = inr v ->
  (forall e h, fst (handler e h) = None) ->
  let '(outcome1, w1) :=
    run (Resolved [sse x_text; sse "not-json"] Done) schema (Some handler) h0 in
  let '(outcome2, w2) :=
    run (Resolved [sse "not-json"; sse x_text] Done) schema (Some handler) h0 in
  (outcome1 = inr tt /\
   output w1 = mk [v] Closed /\
   consumer_view w1 = [Got v; Ended] /\
   handler_calls (trace w1) = [JSONParseError "not-json"] /\
   hstate w1 = snd (handler (JSONParseError "not-json") h0)) /\
  (outcome2 = inr tt /\
   output w2 = mk [v] Closed /\
   consumer_view w2 = [Got v; Ended] /\
   handler_calls (trace w2) = [JSONParseError "not-json"] /\
   hstate w2 = snd (handler (JSONParseError "not-json") h0)).
Proof.
  intros Hv Hr. unfold run.
  assert (Hx : safeParseJSON (data (sse x_text)) schema = Success v).
  { unfold safeParseJSON. cbn [data sse]. by rewrite parse_x_text, Hv. }
  assert (Hn : safeParseJSON (data (sse "not-json")) schema =
               Failure (JSONParseError "not-json")).
  { unfold safeParseJSON. cbn [data sse]. by rewrite parse_not_json. }
  rewrite !(read_resolved_returns safeParseJSON (fun s : Setup => s) _ schema
              (Some handler) h0 _ Done eq_refl Hr).
  unfold consumer_view. cbn [output hstate trace].
  rewrite !valid_data_cons, !invalid_errors_cons. unfold loop_calls, event_calls.
  cbn [map concat]. rewrite Hx, Hn. by vm_compute.
Qed.

(** C5 as stated fails for a handler that throws: with the malformed frame
    last the handler is called three times, not once (in the loop, from the
    [catch] block and from the [.catch] callback); with the malformed frame
    first the valid event is never pushed. *)
Lemma one_malformed_throwing_handler :
  let w1 := snd (run (Resolved [sse x_text; sse "not-json"] Done) x_schema
                   (Some rethrow_counting) 0%nat) in
  let w2 := snd (run (Resolved [sse "not-json"; sse x_text] Done) x_schema
                   (Some rethrow_counting) 0%nat) in
  (handler_calls (trace w1) =
     [JSONParseError "not-json"; JSONParseError "not-json"; JSONParseError "not-json"] /\
   hstate w1 = 3%nat) /\
  (safeParseJSON x_text x_schema = Success x_value /\
   output w2 = mk [] Closed /\
   consumer_view w2 = [Ended]).
Proof. vm_compute. by repeat split. Qed.

Lemma one_valid_one_malformed_witness :
  let '(outcome, w) :=
    run (Resolved [sse x_text; sse "not-json"] Done) x_schema (Some recorder) [] in
  outcome = inr tt /\
  output w = mk [x_value] Closed /\
  consumer_view w = [Got x_value; Ended] /\
  hstate w = [JSONParseError "not-json"].
Proof.
  pose proof (one_valid_one_malformed x_schema recorder [] x_value
                eq_refl (fun _ _ => eq_refl)) as Hw.
  destruct (run (Resolved [sse x_text; sse "not-json"] Done) x_schema (Some recorder) [])
    as [outcome w].
  destruct (run (Resolved [sse "not-json"; sse x_text] Done) x_schema (Some recorder) [])
    as [outcome2 w2].
  destruct Hw as [(Hout & Hqueue & Hview & _ & Hstate) _].
  split; [exact Hout|]. split; [exact Hqueue|]. split; [exact Hview|exact Hstate].
Defined.

(** C1 as stated fails for a handler that throws: the malformed frame
    ends the run, the valid frame after it is never processed, and the
    consumer's sequence is over with nothing in it. *)
Lemma throwing_handler_ends_the_stream :
  let '(outcome, w) :=
    run (Resolved [sse "not-json"; sse x_text] Done) x_schema (Some rethrow) tt in
  safeParseJSON x_text x_schema = Success x_value /\
  outcome = inl (JSONParseError "not-json") /\
  pushed (trace w) = [] /\
  output w = mk [] Closed /\
  consumer_view w = [Ended].
Proof. vm_compute. by repeat split. Qed.

Lemma invalid_frame_reported_and_skipped_witness :
  let '(outcome, w) :=
    run (Resolved ([sse x_text] ++ sse "not-json" :: [sse x_text]) Done)
      x_schema (Some recorder) [] in
  outcome = inr tt /\
  hstate w = [JSONParseError "not-json"] /\
  output w = mk [x_value; x_value] Closed /\
  consumer_view w = [Got x_value; Got x_value; Ended].
Proof.
  pose proof (invalid_frame_reported_and_skipped safeParseJSON (fun s : Setup => s)
                (Resolved ([sse x_text] ++ sse "not-json" :: [sse x_text]) Done)
                x_schema recorder [] [sse x_text] (sse "not-json") [sse x_text] Done
                (JSONParseError "not-json") eq_refl eq_refl (fun _ _ => eq_refl)) as Hw.
  unfold run.
  destruct (readEventSourceStream _ _ _ _ _ _) as [outcome w].
  destruct Hw as (Hout & _ & _ & Hstate & _ & Hqueue & Hview).
  split; [exact Hout|]. split; [exact Hstate|]. split; [exact Hqueue|exact Hview].
Defined.

(** C2 as stated fails: the read fails, the handler is told, and the
    consumer sees a plain end of sequence. *)
Lemma read_failure_is_not_an_error_signal :
  let '(outcome, w) :=
    run (Resolved [] (Throws (DecodeError "connection reset"))) x_schema (Some recorder) [] in
  outcome = inr tt /\
  hstate w = [DecodeError "connection reset"] /\
  consumer_view w = [Ended] /\
  ~ ends_with_error (consumer_view w) (DecodeError "connection reset").
Proof. vm_compute. repeat split; try reflexivity. discriminate. Qed.

Lemma read_failure_reported_then_plain_end_witness :
  let '(outcome, w) :=
    run (Resolved [sse x_text; sse "not-json"] (Throws (DecodeError "connection reset")))
      x_schema (Some recorder) [] in
  status (output w) = Closed /\
  hstate w = [JSONParseError "not-json"; DecodeError "connection reset"] /\
  output w = mk [x_value] Closed /\
  consumer_view w = [Got x_value; Ended].
Proof.
  pose proof (read_failure_reported_then_plain_end safeParseJSON (fun s : Setup => s)
                (Resolved [sse x_text; sse "not-json"] (Throws (DecodeError "connection reset")))
                x_schema (Some recorder) [] (DecodeError "connection reset") eq_refl) as Hw.
  unfold run.
  destruct (readEventSourceStream _ _ _ _ _ _) as [outcome w].
  destruct Hw as (_ & Hthrown & Hret).
  destruct (Hthrown eq_refl) as [Hst _].
  destruct (Hret (fun _ _ => eq_refl)) as (_ & _ & Hstate & Hqueue & Hview).
  split; [exact Hst|]. split; [exact Hstate|]. split; [exact Hqueue|exact Hview].
Defined.

(** C3 as stated fails at its last step: the queued value is delivered,
    and the sequence then ends plainly, not with the error. *)
Lemma failure_after_events_ends_plainly :
  let w := snd (run (Resolved [sse x_text] (Throws (DecodeError "connection reset")))
                  x_schema None tt) in
  consumer_view w = [Got x_value; Ended] /\
  consumer_view w <> [Got x_value; Failed (DecodeError "connection reset")] /\
  ~ ends_with_error (consumer_view w) (DecodeError "connection reset").
Proof. vm_compute. repeat split; try reflexivity; discriminate. Qed.

(** The handler here throws the failure of the stream back at the reader:
    what was queued is delivered all the same. *)
Lemma queued_events_delivered_before_end_witness :
  exists s,
    rtc step
      (init (queue_ops (trace (snd
         (run (Resolved [sse x_text; sse x_text] (Throws (DecodeError "connection reset")))
            x_schema (Some rethrow) tt))))) s /\
    stuck s /\
    seen s = [Got x_value; Got x_value; Ended].
Proof.
  destruct (queued_events_delivered_before_end safeParseJSON (fun s : Setup => s)
              (Resolved [sse x_text; sse x_text] (Throws (DecodeError "connection reset")))
              x_schema (Some rethrow) tt _ _ eq_refl)
    as (_ & _ & Hall & (s & Hrun & Hstuck) & _ & Hseen).
  exists s. split; [exact Hrun|]. split; [exact Hstuck|].
  rewrite (Hseen s Hrun Hstuck), (Hall I). reflexivity.
Defined.

(** A handler that throws inside the loop ends the loop: the frame after
    the malformed one is not processed.  The thrown value is reported from
    the [catch] block, the [finally] block closes the queue, and the
    rejection of the chain is reported once more. *)
Example throwing_handler_in_loop_still_closes :
  let '(outcome, w) :=
    run (Resolved [sse "not-json"; sse x_text] Done) x_schema (Some rethrow) tt in
  outcome = inl (JSONParseError "not-json") /\
  trace w = [Reported (JSONParseError "not-json"); Reported (JSONParseError "not-json");
             QClose; Reported (JSONParseError "not-json")] /\
  consumer_view w = [Ended].
Proof. vm_compute. by repeat split. Qed.

(** C8 at the failing run: the set-up promise rejects and the handler
    throws while being told.  [queue.close()] is never reached: the queue
    stays open and empty, the consumer's request stays suspended in every
    interleaving, and the rejection is left unhandled. *)
Theorem rejected_setup_throwing_handler_never_closes :
  let '(outcome, w) := run (Rejected (JsError "locked")) x_schema (Some rethrow) tt in
  outcome = inl (JsError "locked") /\
  trace w = [Reported (JsError "locked")] /\
  status (output w) = Open /\
  next (output w) = (Pending, output w) /\
  forall s, rtc step (init (queue_ops (trace w))) s -> seen s = [] /\ over s = false.
Proof.
  vm_compute run. do 4 (split; [reflexivity|]).
  intros s Hrun. cbn in Hrun.
  apply rtc_inv in Hrun as [<-|(s' & Hstep & _)]; [by split|].
  inversion Hstep; subst; discriminate.
Qed.

End Scenarios.

(** ** From a stream reader to an async iterator
    ([src/util/convertReadableStreamToAsyncIterator.ts]) *)
Module Iterator.

(** The result of [reader.read()]:
    [{ done: false, value }] or [{ done: true }]. *)
Inductive ReadResult (T : Type) : Type :=
| Chunk (value : T)
| Finished.
Arguments Chunk {T} value.
Arguments Finished {T}.

(** What [next()] of the generator settles to. *)
Inductive IteratorResult (T : Type) : Type :=
| Yielded (value : T)
| Returned.
Arguments Yielded {T} value.
Arguments Returned {T}.

(** How a [for await] over the generator finishes. *)
Inductive Outcome : Type :=
| Completes
| Raises (e : error)
| StillRunning.

Section Iterator.
Context {T R : Type}.

(** The reader: a state and its [read()], which may reject. *)
Variable read : R -> (error + ReadResult T) * R.

(** The generator object: the reader it holds, whether its body has
    finished, and how many times it has called [read()] so far. *)
Record Generator : Type :=
  mkGenerator { reader : R; finished : bool; reads : nat }.

(** Calling the generator function runs nothing yet. *)
Definition convertReadableStreamToAsyncIterator (reader : R) : Generator :=
  mkGenerator reader false 0.

(** One [next()]: the body runs from where it was suspended to the next
    [yield], to the [break], or to a rejection of [read()].  A finished
    generator answers [{ done: true }] and touches nothing. *)
Definition next (g : Generator) : (error + IteratorResult T) * Generator :=
  if finished g then (inr Returned, g)
  else
    match read (reader g) with
    | (inr (Chunk value), r') =>
        (inr (Yielded value), mkGenerator r' false (S (reads g)))
    | (inr Finished, r') =>
        (inr Returned, mkGenerator r' true (S (reads g)))
    | (inl e, r') =>
        (inl e, mkGenerator r' true (S (reads g)))
    end.

(** [for await (const value of generator)], collecting the values; the
    fuel bounds the number of [next()] calls. *)
Fixpoint collect (fuel : nat) (g : Generator) : list T * Outcome * Generator :=
  match fuel with
  | O => ([], StillRunning, g)
  | S fuel' =>
      match next g with
      | (inr (Yielded value), g') =>
          let '(values, outcome, g'') := collect fuel' g' in
          (value :: values, outcome, g'')
      | (inr Returned, g') => ([], Completes, g')
      | (inl e, g') => ([], Raises e, g')
      end
  end.

(** Successive [read()] calls from state [r] yield [values] and then
    the done signal, leaving the reader in state [r']. *)
Fixpoint reads_then_done (values : list T) (r r' : R) : Prop :=
  match values with
  | [] => read r = (inr Finished, r')
  | value :: rest =>
      exists r1, read r = (inr (Chunk value), r1) /\ reads_then_done rest r1 r'
  end.

End Iterator.

(** A reader over a list of chunks still to come. *)
Definition list_read {T} (chunks : list T) : (error + ReadResult T) * list T :=
  match chunks with
  | value :: rest => (inr (Chunk value), rest)
  | [] => (inr Finished, [])
  end.

Section IteratorFacts.
Context {T R : Type}.
Variable read : R -> (error + ReadResult T) * R.

Lemma collect_from values : forall r r' n fuel,
  reads_then_done read values r r' ->
  (length values < fuel)%nat ->
  collect read fuel (mkGenerator r false n) =
    (values, Completes, mkGenerator r' true (n + S (length values))).
Proof.
  induction values as [|value rest IH]; intros r r' n fuel Hr Hf;
    (destruct fuel as [|fuel]; [cbn in Hf; lia|]); cbn in Hr.
  - cbn. rewrite Hr. do 3 f_equal. lia.
  - destruct Hr as (r1 & Hr1 & Hrest). cbn [collect]. unfold next at 1.
    cbn [finished reader reads]. rewrite Hr1.
    rewrite (IH r1 r' (S n) fuel Hrest) by (cbn in Hf; lia).
    f_equal. f_equal. cbn [length]. lia.
Qed.

(** C7: when the reader's successive reads give [v1 .. vn] and then
    done, iterating the generator yields exactly [v1 .. vn] in that order
    and completes, for every bound above [n] on the number of requests;
    it has then called [read()] exactly [n + 1] times, the reader is where
    those reads left it, and any later request answers done without
    reading again. *)
Theorem yields_exactly_the_reads (values : list T) (r r' : R) (fuel : nat) :
  reads_then_done read values r r' ->
  (length values < fuel)%nat ->
  let '(got, outcome, g) := collect read fuel (convertReadableStreamToAsyncIterator r) in
  got = values /\ outcome = Completes /\
  reader g = r' /\ reads g = S (length values) /\
  next read g = (inr Returned, g).
Proof.
  intros Hr Hf. unfold convertReadableStreamToAsyncIterator.
  rewrite (collect_from values r r' 0 fuel Hr Hf). by repeat split.
Qed.

End IteratorFacts.

Lemma yields_exactly_the_reads_witness :
  let '(got, outcome, g) :=
    collect list_read 4 (convertReadableStreamToAsyncIterator [1; 2; 3]%Z) in
  got = [1; 2; 3]%Z /\ outcome = Completes /\ reads g = 4%nat.
Proof.
  pose proof (yields_exactly_the_reads list_read [1; 2; 3]%Z [1; 2; 3]%Z [] 4
                ltac:(cbn; repeat (eexists; split; [reflexivity|]); reflexivity)
                ltac:(cbn; lia)) as Hw.
  destruct (collect list_read 4 _) as [[got outcome] g].
  destruct Hw as (Hg & Ho & _ & Hn & _). by repeat split.
Defined.

End Iterator.

(** ** The Cohere text embedding model
    ([src/model-provider/cohere/CohereTextEmbeddingModel.ts]) *)
Module Cohere.
Local Open Scope string_scope.

(** The JavaScript values a settings object or a request can hold.
    Function objects and abort signals are held by identity. *)
Inductive value : Type :=
| VUndefined
| VString (s : string)
| VStrings (texts : list string)
| VFunction (id : nat)
| VSignal (id : nat).

#[global] Instance value_eq_dec : EqDecision value.
Proof. solve_decision. Defined.

(** Objects live in a store and are passed around by reference.  An
    object is given by its own enumerable properties; the names read off a
    settings object here are not among those every object inherits, and a
    property named [__proto__] is outside the model. *)
Abbreviation object := (gmap string value).
Abbreviation loc := positive.

Inductive Invocation : Type :=
| RetryWrapper
| ThrottleWrapper
| NetworkCall.

(** The store, [process.env.COHERE_API_KEY], and the wrappers and network
    calls invoked so far. *)
Record World : Type :=
  mkWorld { heap : gmap loc object; COHERE_API_KEY : option string;
            invoked : list Invocation }.

Definition C (A : Type) : Type := World -> (error + A) * World.

Definition ret {A} (a : A) : C A := fun w => (inr a, w).
Definition throw {A} (e : error) : C A := fun w => (inl e, w).
Definition bind {A B} (m : C A) (k : A -> C B) : C B :=
  fun w =>
    match m w with
    | (inr a, w') => k a w'
    | (inl e, w') => (inl e, w')
    end.

Notation "'do' x <- m ; k" := (bind m (fun x => k))
  (at level 10, x name, m at level 100, k at level 200, only parsing).

(** The own properties of the object literal [COHERE_TEXT_EMBEDDING_MODELS]
    (lines 18 to 31): [maxTokens] and [embeddingDimensions] of each model. *)
Definition COHERE_TEXT_EMBEDDING_MODELS (name : string) : option (Z * Z) :=
  if String.eqb name "embed-english-light-v2.0" then Some (4096, 1024)%Z
  else if String.eqb name "embed-english-v2.0" then Some (4096, 4096)%Z
  else if String.eqb name "embed-multilingual-v2.0" then Some (4096, 768)%Z
  else None.

(** The table is an ordinary object, so indexing it also finds what every
    object inherits from [Object.prototype]. *)
Definition Object_prototype : list string :=
  [ "constructor"; "__proto__"; "hasOwnProperty"; "isPrototypeOf";
    "propertyIsEnumerable"; "toLocaleString"; "toString"; "valueOf";
    "__defineGetter__"; "__defineSetter__"; "__lookupGetter__"; "__lookupSetter__" ].

(** What [COHERE_TEXT_EMBEDDING_MODELS[key]] evaluates to: an entry of the
    table, a member of [Object.prototype] (a function, or the prototype
    itself for [__proto__]), or [undefined]. *)
Inductive Indexed : Type :=
| Entry (maxTokens embeddingDimensions : Z)
| Inherited
| Undefined.

#[global] Instance Indexed_eq_dec : EqDecision Indexed.
Proof. solve_decision. Defined.

Definition index_models (key : string) : Indexed :=
  match COHERE_TEXT_EMBEDDING_MODELS key with
  | Some (tokens, dimensions) => Entry tokens dimensions
  | None => if bool_decide (key ∈ Object_prototype) then Inherited else Undefined
  end.

(** [found.maxTokens] and [found.embeddingDimensions] for a value that is
    not [undefined]: the members of [Object.prototype] have no such
    property, and the read gives [undefined] ([None]). *)
Definition maxTokens_of (found : Indexed) : option Z :=
  match found with Entry tokens _ => Some tokens | _ => None end.
Definition embeddingDimensions_of (found : Indexed) : option Z :=
  match found with Entry _ dimensions => Some dimensions | _ => None end.

(** What [CohereTokenizer.forModel({ apiKey, model })] is given. *)
Record Tokenizer : Type := mkTokenizer { tokenizer_apiKey : value; tokenizer_model : value }.

(** The fields are typed [number], but hold [undefined] ([None]) when the
    model name is one the table only inherits. *)
Record CohereTextEmbeddingModel : Type :=
  mkModel { settings : loc; maxTokens : option Z; tokenizer : Tokenizer;
            embeddingDimensions : option Z }.

Record RunContext : Type := mkRunContext { abortSignal : option nat }.

(** The argument of [postJsonToApi], as far as this file fills it in. *)
Record Request : Type :=
  mkRequest { url : string; request_apiKey : value; body_model : value;
              body_texts : value; body_truncate : value; request_abortSignal : value }.

Definition maxTextsPerCall : nat := 96.

Definition no_api_key : error :=
  JsError "No Cohere API key provided. Pass an API key to the constructor or set the COHERE_API_KEY environment variable.".

(** The [TypeError] of reading a property of [undefined]; its message is
    the engine's own (the one here is the message of V8, without the name of
    the property). *)
Definition type_error : error :=
  JsError "TypeError: Cannot read properties of undefined".

Definition too_many_texts : error :=
  JsError ("The Cohere embedding API only supports " +:+ pretty maxTextsPerCall +:+
           " texts per API call.").

(** The string a value turns into, inside a template literal or as a
    property key.  The text of a function object is its source, which is
    not modelled: ["function"] stands for it (a source text holds a
    parenthesis, a brace or an arrow, so it is no name of the table and no
    member of [Object.prototype]). *)
Definition to_string (v : value) : string :=
  match v with
  | VUndefined => "undefined"
  | VString s => s
  | VStrings texts => String.concat "," texts
  | VFunction _ => "function"
  | VSignal _ => "[object AbortSignal]"
  end.

(** [o.key]: a missing property reads as [undefined]. *)
Definition get (key : string) (o : object) : value := default VUndefined (o !! key).

(** [this.settings], read through the reference. *)
Definition read_settings (this_settings : loc) : C object :=
  fun w => (inr (default ∅ (heap w !! this_settings)), w).

(** [{}] *)
Definition new_object : C loc :=
  fun w =>
    let l := fresh (dom (heap w)) in
    (inr l, mkWorld (<[l := ∅]> (heap w)) (COHERE_API_KEY w) (invoked w)).

(** [Object.assign(target, ...sources)]: the properties of each source in
    turn are written onto the target; the sources are only read. *)
Fixpoint Object_assign (target : loc) (sources : list loc) : C loc :=
  match sources with
  | [] => ret target
  | source :: rest =>
      bind (fun w =>
              let src := default ∅ (heap w !! source) in
              let tgt := default ∅ (heap w !! target) in
              (inr tt, mkWorld (<[target := src ∪ tgt]> (heap w))
                               (COHERE_API_KEY w) (invoked w)))
           (fun _ => Object_assign target rest)
  end.

(** [get modelName() { return this.settings.model; }] *)
Definition modelName (this_settings : loc) : C value :=
  do o <- read_settings this_settings ; ret (get "model" o).

(** [private get apiKey()], lines 98 to 108:
    [this.settings.apiKey ?? process.env.COHERE_API_KEY], refused when
    [null]. *)
Definition apiKey (this_settings : loc) : C value :=
  do o <- read_settings this_settings ;
  fun w =>
    match get "apiKey" o with
    | VUndefined =>
        match COHERE_API_KEY w with
        | Some key => (inr (VString key), w)
        | None => (inl no_api_key, w)
        end
    | key => (inr key, w)
    end.

(** The key the getter finds, if any. *)
Definition available_key (o : object) (env : option string) : option value :=
  match get "apiKey" o with
  | VUndefined => VString <$> env
  | key => Some key
  end.

(** What the constructor needs of a settings object: a model whose name,
    as a property key, finds something in the table, and a key for the
    tokenizer. *)
Definition accepted (o : object) (env : option string)
  : option (value * Indexed * value) :=
  match index_models (to_string (get "model" o)), available_key o env with
  | Undefined, _ => None
  | found, Some key => Some (get "model" o, found, key)
  | _, None => None
  end.

(** [COHERE_TEXT_EMBEDDING_MODELS[this.modelName]], of which a property is
    then read: the name is turned into a property key; reading a property
    of [undefined] is a [TypeError]. *)
Definition model_entry (this_settings : loc) : C (value * Indexed) :=
  do name <- modelName this_settings ;
  match index_models (to_string name) with
  | Undefined => throw type_error
  | found => ret (name, found)
  end.

(** [new CohereTextEmbeddingModel(settings)], lines 71 to 86: the base
    class keeps the reference it is given as [this.settings]. *)
Definition constructor (this_settings : loc) : C CohereTextEmbeddingModel :=
  do entry <- model_entry this_settings ;
  do key <- apiKey this_settings ;
  do name <- modelName this_settings ;
  do entry' <- model_entry this_settings ;
  ret (mkModel this_settings (maxTokens_of (snd entry)) (mkTokenizer key name)
               (embeddingDimensions_of (snd entry'))).

(** [withSettings(additionalSettings)], lines 145 to 149. *)
Definition withSettings (this : CohereTextEmbeddingModel) (additionalSettings : loc)
  : C CohereTextEmbeddingModel :=
  do target <- new_object ;
  do merged <- Object_assign target [settings this; additionalSettings] ;
  constructor merged.

Section Calls.
Context {Response : Type}.

(** [RetryFunction] and [ThrottleFunction] have the same shape. *)
Definition Wrapper : Type := (unit -> C Response) -> C Response.

(** The function objects held in settings, the two defaults
    ([retryWithExponentialBackoff()], [throttleUnlimitedConcurrency()])
    and [postJsonToApi] are not part of the sources. *)
Variable functions : nat -> option Wrapper.
Variable retryWithExponentialBackoff : Wrapper.
Variable throttleUnlimitedConcurrency : Wrapper.
Variable postJsonToApi : Request -> C Response.

Definition invoke (what : Invocation) (m : C Response) : C Response :=
  fun w => m (mkWorld (heap w) (COHERE_API_KEY w) (invoked w ++ [what])).

(** [this.settings.retry ?? fallback], then the call of the result. *)
Definition wrapper_of (key : string) (fallback : Wrapper) (this : CohereTextEmbeddingModel)
  : C Wrapper :=
  do o <- read_settings (settings this) ;
  match get key o with
  | VUndefined => ret fallback
  | VFunction id =>
      match functions id with
      | Some f => ret f
      | None => throw (JsError "TypeError: not a function")
      end
  | _ => throw (JsError "TypeError: not a function")
  end.

(** [callCohereEmbeddingAPI], lines 182 to 211; the default of [baseUrl]
    applies when the property is [undefined]. *)
Definition callCohereEmbeddingAPI (args : object) : C Response :=
  let baseUrl :=
    match get "baseUrl" args with
    | VUndefined => VString "https://api.cohere.ai/v1"
    | given => given
    end in
  invoke NetworkCall
    (postJsonToApi
       (mkRequest (to_string baseUrl +:+ "/embed") (get "apiKey" args) (get "model" args)
                  (get "texts" args) (get "truncate" args) (get "abortSignal" args))).

(** The [return] statement of [callAPI], lines 133 to 142. *)
Definition wrapped_call (this : CohereTextEmbeddingModel) (texts : list string)
    (context : option RunContext) : C Response :=
  do retry <- wrapper_of "retry" retryWithExponentialBackoff this ;
  invoke RetryWrapper (retry (fun _ =>
    do throttle <- wrapper_of "throttle" throttleUnlimitedConcurrency this ;
    invoke ThrottleWrapper (throttle (fun _ =>
      do key <- apiKey (settings this) ;
      do o <- read_settings (settings this) ;
      callCohereEmbeddingAPI
        (o ∪ {[ "abortSignal" :=
                  match context with
                  | Some (mkRunContext (Some id)) => VSignal id
                  | _ => VUndefined
                  end;
                "apiKey" := key;
                "texts" := VStrings texts ]}))))).

(** [callAPI(texts, context)], lines 123 to 143. *)
Definition callAPI (this : CohereTextEmbeddingModel) (texts : list string)
    (context : option RunContext) : C Response :=
  if (maxTextsPerCall <? length texts)%nat then throw too_many_texts
  else wrapped_call this texts context.

End Calls.
Section CallFacts.
Context {Response : Type}.
Variable functions : nat -> option (@Wrapper Response).
Variable retryWithExponentialBackoff throttleUnlimitedConcurrency : @Wrapper Response.
Variable postJsonToApi : Request -> C Response.

(** C9: with more than 96 texts [callAPI] fails with the error that
    names the limit of 96 texts per call, and nothing has been invoked by
    then: the world, with its record of wrapper and network invocations,
    is as before, whatever the wrappers and the network call are.  With
    at most 96 texts the guard does not fire: the call is exactly the
    wrapped call. *)
Theorem callAPI_limit (this : CohereTextEmbeddingModel) (texts : list string)
    (context : option RunContext) (w : World) :
  let call := callAPI functions retryWithExponentialBackoff throttleUnlimitedConcurrency
                postJsonToApi this texts context in
  ((96 < length texts)%nat ->
   call w = (inl (JsError "The Cohere embedding API only supports 96 texts per API call."), w)
   /\ invoked (snd (call w)) = invoked w) /\
  ((length texts <= 96)%nat ->
   call w = wrapped_call functions retryWithExponentialBackoff throttleUnlimitedConcurrency
              postJsonToApi this texts context w).
Proof.
  intros call. subst call. unfold callAPI, maxTextsPerCall. split; intros Hlen.
  - apply Nat.ltb_lt in Hlen. rewrite Hlen. by split.
  - apply Nat.ltb_ge in Hlen. by rewrite Hlen.
Qed.

End CallFacts.

(** *** Settings *)

Lemma fresh_not_in (h : gmap loc object) : h !! fresh (dom h) = None.
Proof. apply not_elem_of_dom, is_fresh. Qed.

Lemma fresh_ne (h : gmap loc object) (l : loc) (o : object) :
  h !! l = Some o -> fresh (dom h) <> l.
Proof. intros Hl Heq. subst l. pose proof (fresh_not_in h). congruence. Qed.

(** What [withSettings] hands to the constructor: a fresh object holding
    the overlay; nothing else in the store has changed. *)
Lemma withSettings_merges (this : CohereTextEmbeddingModel) (s : loc) (w : World)
    (ms ss : object) :
  heap w !! settings this = Some ms ->
  heap w !! s = Some ss ->
  withSettings this s w =
    constructor (fresh (dom (heap w)))
      (mkWorld (<[fresh (dom (heap w)) := ss ∪ ms]> (heap w)) (COHERE_API_KEY w) (invoked w)).
Proof.
  intros Hm Hs. unfold withSettings, bind, new_object. cbn [Object_assign].
  unfold bind, ret. cbn [heap COHERE_API_KEY invoked].
  pose proof (fresh_ne _ _ _ Hm) as Hne1. pose proof (fresh_ne _ _ _ Hs) as Hne2.
  set (l := fresh (dom (heap w))) in *.
  rewrite lookup_insert_eq, (lookup_insert_ne _ l (settings this)), Hm by done.
  cbn [default]. rewrite lookup_insert_eq, lookup_insert_ne, lookup_insert_ne, Hs by done.
  cbn [default]. rewrite !insert_insert_eq. unfold id. by rewrite (map_union_empty ms).
Qed.

Lemma read_settings_at (l : loc) (w : World) (o : object) :
  heap w !! l = Some o -> read_settings l w = (inr o, w).
Proof. intros Hl. unfold read_settings. by rewrite Hl. Qed.

Lemma modelName_at (l : loc) (w : World) (o : object) :
  heap w !! l = Some o -> modelName l w = (inr (get "model" o), w).
Proof. intros Hl. unfold modelName, bind. by rewrite (read_settings_at l w o Hl). Qed.

Lemma model_entry_found (l : loc) (w : World) (o : object) :
  heap w !! l = Some o ->
  index_models (to_string (get "model" o)) <> Undefined ->
  model_entry l w = (inr (get "model" o, index_models (to_string (get "model" o))), w).
Proof.
  intros Hl Hfound. unfold model_entry, bind. rewrite (modelName_at l w o Hl).
  by destruct (index_models (to_string (get "model" o))).
Qed.

Lemma model_entry_undefined (l : loc) (w : World) (o : object) :
  heap w !! l = Some o ->
  index_models (to_string (get "model" o)) = Undefined ->
  model_entry l w = (inl type_error, w).
Proof.
  intros Hl Hfound. unfold model_entry, bind. rewrite (modelName_at l w o Hl).
  by rewrite Hfound.
Qed.

Lemma apiKey_available (l : loc) (w : World) (o : object) key :
  heap w !! l = Some o ->
  available_key o (COHERE_API_KEY w) = Some key ->
  apiKey l w = (inr key, w).
Proof.
  intros Hl Hkey. unfold apiKey, bind. rewrite (read_settings_at l w o Hl).
  unfold available_key in Hkey. destruct (get "apiKey" o); try by simplify_eq.
  destruct (COHERE_API_KEY w); by simplify_eq/=.
Qed.

Lemma apiKey_missing (l : loc) (w : World) (o : object) :
  heap w !! l = Some o ->
  available_key o (COHERE_API_KEY w) = None ->
  apiKey l w = (inl no_api_key, w).
Proof.
  intros Hl Hkey. unfold apiKey, bind. rewrite (read_settings_at l w o Hl).
  unfold available_key in Hkey. destruct (get "apiKey" o); try done.
  by destruct (COHERE_API_KEY w).
Qed.

Lemma constructor_accepts (l : loc) (w : World) (o : object) key :
  heap w !! l = Some o ->
  index_models (to_string (get "model" o)) <> Undefined ->
  available_key o (COHERE_API_KEY w) = Some key ->
  constructor l w =
    (inr (mkModel l (maxTokens_of (index_models (to_string (get "model" o))))
                  (mkTokenizer key (get "model" o))
                  (embeddingDimensions_of (index_models (to_string (get "model" o))))), w).
Proof.
  intros Hl Hfound Hkey. unfold constructor, bind.
  rewrite (model_entry_found l w o) by done.
  rewrite (apiKey_available l w o key) by done.
  rewrite (modelName_at l w o Hl).
  by rewrite (model_entry_found l w o) by done.
Qed.

Lemma index_entry name tokens dimensions :
  COHERE_TEXT_EMBEDDING_MODELS name = Some (tokens, dimensions) ->
  index_models name = Entry tokens dimensions.
Proof. intros Hentry. unfold index_models. by rewrite Hentry. Qed.

Lemma bind_keeps_world {A B} (m : C A) (k : A -> C B) :
  (forall w, snd (m w) = w) -> (forall a w, snd (k a w) = w) ->
  forall w, snd (bind m k w) = w.
Proof.
  intros Hm Hk w. unfold bind. specialize (Hm w).
  destruct (m w) as [[e|a] w']; cbn in *; [done|]. subst w'. apply Hk.
Qed.

Lemma modelName_keeps_world (l : loc) (w : World) : snd (modelName l w) = w.
Proof. unfold modelName. revert w. by apply bind_keeps_world. Qed.

Lemma model_entry_keeps_world (l : loc) (w : World) : snd (model_entry l w) = w.
Proof.
  unfold model_entry. revert w. apply bind_keeps_world.
  - apply modelName_keeps_world.
  - intros name w. by destruct (index_models (to_string name)).
Qed.

Lemma apiKey_keeps_world (l : loc) (w : World) : snd (apiKey l w) = w.
Proof.
  unfold apiKey. revert w. apply bind_keeps_world; [done|].
  intros o w. destruct (get "apiKey" o); try done. by destruct (COHERE_API_KEY w).
Qed.

Lemma constructor_keeps_world (l : loc) (w : World) : snd (constructor l w) = w.
Proof.
  unfold constructor. revert w.
  apply bind_keeps_world; [apply model_entry_keeps_world|]. intros entry.
  apply bind_keeps_world; [apply apiKey_keeps_world|]. intros key.
  apply bind_keeps_world; [apply modelName_keeps_world|]. intros name.
  apply bind_keeps_world; [apply model_entry_keeps_world|]. done.
Qed.

(** C10, as the code has it: [m.withSettings(s)] builds a fresh object
    holding the settings of [m] overlaid with [s] (a key of [s] wins) and
    hands it to the constructor; every object that was in the store, the
    settings of [m] among them, is as before, whether or not the
    constructor returns.  When the overlay names a model of the table and
    leaves an API key to be found, in the overlay or in the environment,
    the result is a new instance on that fresh object, with the figures of
    that model and a tokenizer for it. *)
Theorem withSettings_overlay (this : CohereTextEmbeddingModel) (s : loc) (w : World)
    (ms ss : object) :
  heap w !! settings this = Some ms ->
  heap w !! s = Some ss ->
  let '(result, w') := withSettings this s w in
  let l := fresh (dom (heap w)) in
  (l ∉ dom (heap w)) /\
  heap w' !! l = Some (ss ∪ ms) /\
  (forall k, (ss ∪ ms) !! k = match ss !! k with Some v => Some v | None => ms !! k end) /\
  (forall l', l' ∈ dom (heap w) -> heap w' !! l' = heap w !! l') /\
  heap w' !! settings this = Some ms /\
  (forall name tokens dimensions key,
     get "model" (ss ∪ ms) = VString name ->
     COHERE_TEXT_EMBEDDING_MODELS name = Some (tokens, dimensions) ->
     available_key (ss ∪ ms) (COHERE_API_KEY w) = Some key ->
     result = inr (mkModel l (Some tokens) (mkTokenizer key (VString name))
                           (Some dimensions)) /\
     l <> settings this).
Proof.
  intros Hm Hs.
  rewrite (withSettings_merges this s w ms ss Hm Hs).
  set (l := fresh (dom (heap w))).
  set (w1 := mkWorld (<[l := ss ∪ ms]> (heap w)) (COHERE_API_KEY w) (invoked w)).
  assert (Hl : heap w1 !! l = Some (ss ∪ ms)) by apply lookup_insert_eq.
  assert (Hfresh : l ∉ dom (heap w)) by apply is_fresh.
  assert (Hne : l <> settings this) by (by apply (fresh_ne _ _ ms)).
  pose proof (constructor_keeps_world l w1) as Hkeep.
  assert (Hcase : forall name tokens dimensions key,
     get "model" (ss ∪ ms) = VString name ->
     COHERE_TEXT_EMBEDDING_MODELS name = Some (tokens, dimensions) ->
     available_key (ss ∪ ms) (COHERE_API_KEY w) = Some key ->
     fst (constructor l w1) =
       inr (mkModel l (Some tokens) (mkTokenizer key (VString name)) (Some dimensions)) /\
     l <> settings this).
  { intros name tokens dimensions key Hmodel Hentry Hkey. split; [|done].
    rewrite (constructor_accepts l w1 (ss ∪ ms) key Hl); [| |done].
    - rewrite Hmodel. cbn [to_string]. by rewrite (index_entry name tokens dimensions).
    - rewrite Hmodel. cbn [to_string]. by rewrite (index_entry name tokens dimensions). }
  destruct (constructor l w1) as [result w']. cbn [snd fst] in *. subst w'.
  cbv zeta. fold l.
  split; [exact Hfresh|]. split; [exact Hl|]. split.
  { intros k. rewrite lookup_union. by destruct (ss !! k), (ms !! k). }
  split.
  { intros l' Hl'. unfold w1. cbn [heap]. apply lookup_insert_ne. by intros <-. }
  split; [|exact Hcase]. unfold w1. cbn [heap]. by rewrite lookup_insert_ne.
Qed.

(** The settings of [m] are left alone also when the constructor throws. *)
Lemma withSettings_frame (this : CohereTextEmbeddingModel) (s : loc) (w : World)
    (ms ss : object) :
  heap w !! settings this = Some ms ->
  heap w !! s = Some ss ->
  heap (snd (withSettings this s w)) !! settings this = Some ms.
Proof.
  intros Hm Hs. rewrite (withSettings_merges this s w ms ss Hm Hs).
  rewrite constructor_keeps_world. cbn [heap].
  rewrite lookup_insert_ne; [done|]. by apply (fresh_ne _ _ ms).
Qed.

(** *** A concrete store *)

Definition english : object :=
  {[ "model" := VString "embed-english-v2.0"; "apiKey" := VString "key-1" ]}.
Definition unset_key : object := {[ "apiKey" := VUndefined ]}.
Definition truncate_end : object := {[ "truncate" := VString "END" ]}.

Definition store : World :=
  mkWorld {[ 1%positive := english; 2%positive := unset_key; 3%positive := truncate_end ]}
          None [].

Definition english_model : CohereTextEmbeddingModel :=
  mkModel 1 (Some 4096%Z) (mkTokenizer (VString "key-1") (VString "embed-english-v2.0"))
          (Some 4096%Z).

Lemma english_model_constructed : constructor 1 store = (inr english_model, store).
Proof. vm_compute. reflexivity. Qed.

(** C10 as stated fails: [s = { apiKey: undefined }] overrides the key of
    [m], the environment has none, and the constructor throws instead of
    returning an instance. *)
Lemma withSettings_may_throw :
  constructor 1 store = (inr english_model, store) /\
  fst (withSettings english_model 2 store) = inl no_api_key.
Proof. split; vm_compute; reflexivity. Qed.

Lemma withSettings_overlay_witness :
  let '(result, w') := withSettings english_model 3 store in
  result = inr (mkModel 4 (Some 4096%Z)
                        (mkTokenizer (VString "key-1") (VString "embed-english-v2.0"))
                        (Some 4096%Z)) /\
  heap w' !! 4%positive =
    Some {[ "model" := VString "embed-english-v2.0"; "apiKey" := VString "key-1";
            "truncate" := VString "END" ]} /\
  heap w' !! 1%positive = Some english.
Proof.
  pose proof (withSettings_overlay english_model 3 store english truncate_end
                eq_refl eq_refl) as Hw.
  destruct (withSettings english_model 3 store) as [result w'].
  destruct Hw as (_ & Hnew & _ & _ & Hold & Hres).
  destruct (Hres "embed-english-v2.0" 4096%Z 4096%Z (VString "key-1")
              eq_refl eq_refl eq_refl) as [Hresult _].
  split; [exact Hresult|]. split; [exact Hnew|exact Hold].
Defined.

Lemma callAPI_limit_witness :
  fst (callAPI (Response := nat) (fun _ => None) (fun f => f tt) (fun f => f tt)
         (fun _ => ret 0%nat) english_model (replicate 97 "text") None store) =
    inl (JsError "The Cohere embedding API only supports 96 texts per API call.") /\
  callAPI (Response := nat) (fun _ => None) (fun f => f tt) (fun f => f tt)
    (fun _ => ret 0%nat) english_model ["a"; "b"] None store =
    (inr 0%nat, mkWorld (heap store) None [RetryWrapper; ThrottleWrapper; NetworkCall]).
Proof.
  pose proof (callAPI_limit (Response := nat) (fun _ => None) (fun f => f tt) (fun f => f tt)
                (fun _ => ret 0%nat) english_model (replicate 97 "text") None store) as [Hover _].
  pose proof (callAPI_limit (Response := nat) (fun _ => None) (fun f => f tt) (fun f => f tt)
                (fun _ => ret 0%nat) english_model ["a"; "b"] None store) as [_ Hunder].
  split.
  - rewrite (proj1 (Hover ltac:(rewrite length_replicate; lia))). reflexivity.
  - rewrite (Hunder ltac:(cbn; lia)). vm_compute. reflexivity.
Defined.

End Cohere.

(** ** More on the validated event reader *)
Module ReaderRuns.
Import AsyncQueue Reader.

Section ReaderRuns.
Context {T H Schema Stream : Type}.
Variable safeParseJSON : string -> Schema -> ParseResult T.
Variable parseEventSourceStream : Stream -> Setup.
Implicit Types (w : @World T H) (errorHandler : option (@ErrorHandler H))
  (events : list Frame) (schema : Schema).

(** A call that is no close, and a call that is no push. *)
Definition no_close (c : Call T) : Prop := c <> QClose.
Definition no_push (c : Call T) : Prop := forall v, c <> QPush v.

Lemma all_valid_cons schema ev events :
  invalid_errors safeParseJSON schema (ev :: events) = [] ->
  (exists d, safeParseJSON (data ev) schema = Success d) /\
  invalid_errors safeParseJSON schema events = [].
Proof.
  rewrite invalid_errors_cons.
  destruct (safeParseJSON (data ev) schema) as [d|e]; [eauto|done].
Qed.

(** Valid frames are pushed without the callback being looked at. *)
Lemma for_await_valid_prefix schema errorHandler before rest ending its (h : H) tr :
  invalid_errors safeParseJSON schema before = [] ->
  for_await (before ++ rest) ending (on_event safeParseJSON schema errorHandler)
    (mkWorld (mk its Open) h tr) =
  for_await rest ending (on_event safeParseJSON schema errorHandler)
    (mkWorld (mk (its ++ valid_data safeParseJSON schema before) Open) h
             (tr ++ map QPush (valid_data safeParseJSON schema before))).
Proof.
  revert its tr. induction before as [|ev before IH]; intros its tr Hv.
  - cbn. by rewrite !app_nil_r.
  - destruct (all_valid_cons _ _ _ Hv) as [[d Hd] Hrest].
    cbn [app for_await]. unfold bind. unfold on_event at 1. rewrite Hd.
    unfold queue_push, push. cbn [output status items hstate trace].
    rewrite IH by done. rewrite valid_data_cons, Hd. cbn [map].
    by rewrite <- !app_assoc.
Qed.

Lemma call_trace errorHandler e w :
  exists tr, trace (snd (call errorHandler e w)) = trace w ++ tr /\
             Forall no_close tr /\ Forall no_push tr.
Proof.
  unfold call. destruct errorHandler as [f|].
  - exists [Reported e]. destruct (f e (hstate w)) as [[e'|] h']; cbn [snd trace];
      (split; [done|]); split; by repeat constructor.
  - exists []. cbn. by rewrite app_nil_r.
Qed.

Lemma for_await_trace schema errorHandler events ending w :
  exists tr,
    trace (snd (for_await events ending (on_event safeParseJSON schema errorHandler) w)) =
      trace w ++ tr /\
    Forall no_close tr.
Proof.
  revert w. induction events as [|ev events IH]; intros w.
  - exists []. cbn. rewrite app_nil_r. by destruct ending.
  - cbn [for_await]. unfold bind. unfold on_event at 1.
    destruct (safeParseJSON (data ev) schema) as [d|e].
    + unfold queue_push.
      destruct (push d (output w)) as [e'|q'].
      * exists [QPush d]. split; [done|]. by repeat constructor.
      * destruct (IH (mkWorld q' (hstate w) (trace w ++ [QPush d]))) as (tr & Htr & Hnc).
        exists (QPush d :: tr). rewrite Htr. cbn [trace]. rewrite <- app_assoc.
        split; [done|]. constructor; [done|exact Hnc].
    + destruct (call_trace errorHandler e w) as (tr1 & Htr1 & Hnc1 & _).
      destruct (call errorHandler e w) as [[e'|[]] w1]; cbn [snd] in Htr1.
      * exists tr1. by split.
      * destruct (IH w1) as (tr & Htr & Hnc).
        exists (tr1 ++ tr). rewrite Htr, Htr1, <- app_assoc.
        split; [done|]. by apply Forall_app.
Qed.

(** X1: once the set-up promise has resolved, the queue is closed by the
    end of the run whatever the error handler does, also when it throws: the
    consumer's sequence ends with a plain end of sequence and carries no
    error signal. *)
Theorem resolved_setup_always_closes stream schema errorHandler (h0 : H) events ending :
  parseEventSourceStream stream = Resolved events ending ->
  let w := snd (readEventSourceStream safeParseJSON parseEventSourceStream
                  stream schema errorHandler h0) in
  status (output w) = Closed /\
  consumer_view w = map Got (items (output w)) ++ [Ended] /\
  In QClose (trace w).
Proof.
  intros Hs w.
  destruct (read_resolved_output safeParseJSON parseEventSourceStream
              stream schema errorHandler h0 events ending Hs) as (n & _ & Ho).
  fold w in Ho.
  assert (Hview : consumer_view w = map Got (items (output w)) ++ [Ended]).
  { unfold w. rewrite consumer_view_drain by apply trace_sound. fold w.
    unfold drain. by rewrite Ho. }
  split; [by rewrite Ho|]. split; [exact Hview|].
  assert (Hfind : forall (tr : list (Call T)) (q : AsyncQueue.t T),
            status q = Open -> status (replay (queue_ops tr) q) = Closed -> In QClose tr).
  { induction tr as [|c tr IH]; intros q Hq Hc; [cbn in Hc; congruence|].
    destruct c as [e|v|]; [right|right|by left].
    - by apply (IH q).
    - apply (IH (mk (items q ++ [v]) Open)); [done|].
      cbn in Hc. unfold push in Hc. by rewrite Hq in Hc. }
  pose proof (trace_sound safeParseJSON parseEventSourceStream stream schema errorHandler h0)
    as Hc.
  fold w in Hc. unfold consistent in Hc.
  apply (Hfind (trace w) new eq_refl). by rewrite <- Hc, Ho.
Qed.

(** X2: when the set-up promise rejects and the error handler returns (or
    there is none), the rejection is reported exactly once, the queue is
    then closed with nothing in it, and the chain ends without a
    rejection of its own. *)
Theorem rejected_setup_reported_once stream schema errorHandler (h0 : H) e :
  parseEventSourceStream stream = Rejected e ->
  returns errorHandler ->
  let '(outcome, w) := readEventSourceStream safeParseJSON parseEventSourceStream
                         stream schema errorHandler h0 in
  outcome = inr tt /\
  trace w = report_calls errorHandler [e] ++ [QClose] /\
  handler_calls (trace w) = match errorHandler with Some _ => [e] | None => [] end /\
  output w = mk [] Closed /\
  consumer_view w = [Ended].
Proof.
  intros Hs Hr. rewrite (read_rejected_returns _ _ _ _ _ _ e Hs Hr).
  split; [done|]. split; [done|]. cbn [trace output]. split.
  - rewrite handler_calls_app, handler_calls_report. cbn. rewrite app_nil_r. done.
  - split; [done|]. unfold consumer_view. cbn [trace].
    rewrite queue_ops_app, queue_ops_report. reflexivity.
Qed.

(** X3: an error handler that throws when told of the first validation
    failure of a stream ends the loop there, whatever it does when it is
    called again.  The frames after the failing one are neither validated nor
    pushed; the thrown value is reported to the handler from the catch
    block and the queue is then closed, holding exactly the values pushed
    before the failing frame, which the consumer receives followed by a
    plain end; nothing is pushed afterwards.  When the call from the catch
    block returns, that is all, and nothing is left unhandled. *)
Theorem throwing_handler_stops_the_loop
    stream schema (handler : @ErrorHandler H) (h0 h1 : H)
    before frame after ending err thrown :
  parseEventSourceStream stream = Resolved (before ++ frame :: after) ending ->
  invalid_errors safeParseJSON schema before = [] ->
  safeParseJSON (data frame) schema = Failure err ->
  handler err h0 = (Some thrown, h1) ->
  let '(outcome, w) := readEventSourceStream safeParseJSON parseEventSourceStream
                         stream schema (Some handler) h0 in
  output w = mk (valid_data safeParseJSON schema before) Closed /\
  pushed (trace w) = valid_data safeParseJSON schema before /\
  consumer_view w = map Got (valid_data safeParseJSON schema before) ++ [Ended] /\
  exists rest,
    trace w = map QPush (valid_data safeParseJSON schema before) ++
              [Reported err; Reported thrown; QClose] ++ rest /\
    Forall no_push rest /\
    (fst (handler thrown h1) = None ->
     rest = [] /\ outcome = inr tt /\ hstate w = snd (handler thrown h1)).
Proof.
  intros Hs Hv Hf H1.
  pose proof (trace_sound safeParseJSON parseEventSourceStream stream schema (Some handler) h0)
    as Hsound.
  assert (Hpushed : forall vs : list T, pushed (map QPush vs) = vs).
  { induction vs as [|v vs IH]; [done|]. cbn. by f_equal. }
  destruct (readEventSourceStream _ _ _ _ _ _) as [outcome w] eqn:Hrun.
  cbn [snd] in Hsound.
  unfold readEventSourceStream, read_loop, then_catch in Hrun. rewrite Hs in Hrun.
  unfold try_catch_finally, new in Hrun.
  rewrite (for_await_valid_prefix schema (Some handler) before (frame :: after) ending
             [] h0 [] Hv) in Hrun.
  cbn [for_await app] in Hrun. unfold bind at 1 in Hrun. unfold on_event at 1 in Hrun.
  rewrite Hf in Hrun.
  unfold call at 1 in Hrun. cbn [hstate output trace] in Hrun. rewrite H1 in Hrun.
  unfold call at 1 in Hrun. cbn [hstate output trace] in Hrun.
  destruct (handler thrown h1) as [[e2|] h2] eqn:H2.
  - unfold queue_close at 1, close in Hrun. cbn [output status items hstate trace] in Hrun.
    unfold bind, call in Hrun. cbn [hstate output trace] in Hrun.
    destruct (handler e2 h2) as [[e3|] h3] eqn:H3;
      [|unfold queue_close, close in Hrun; cbn [output status items hstate trace] in Hrun];
      injection Hrun as <- <-; cbn [output trace hstate] in *;
      (split; [done|]);
      (split; [rewrite !pushed_app, Hpushed; cbn; by rewrite !app_nil_r|]);
      (split; [by apply consumer_view_closed|]).
    + exists [Reported e2]. rewrite <- !app_assoc. split; [done|].
      split; [by repeat constructor|done].
    + exists [Reported e2; QClose]. rewrite <- !app_assoc. split; [done|].
      split; [by repeat constructor|done].
  - unfold queue_close, close in Hrun. cbn [output status items hstate trace] in Hrun.
    injection Hrun as <- <-. cbn [output trace hstate] in *.
    split; [done|].
    split; [rewrite !pushed_app, Hpushed; cbn; by rewrite !app_nil_r|].
    split; [by apply consumer_view_closed|].
    exists []. rewrite <- !app_assoc. split; [done|]. split; [constructor|done].
Qed.

(** X4: the reader never pushes after it has closed the queue: in the
    trace of every run, whatever the stream and the handler, all pushes
    come before the first close. *)
Theorem never_pushes_after_close stream schema errorHandler (h0 : H) :
  let w := snd (readEventSourceStream safeParseJSON parseEventSourceStream
                  stream schema errorHandler h0) in
  exists before after,
    trace w = before ++ after /\ Forall no_close before /\ Forall no_push after.
Proof.
  intros w. subst w. unfold readEventSourceStream, read_loop, then_catch.
  assert (Hclose : forall w0 : @World T H,
            trace (snd (@queue_close T H w0)) = trace w0 ++ [QClose]) by done.
  assert (Hrej : forall e (w0 : @World T H), exists tr,
            trace (snd (bind (call errorHandler e) (fun _ => queue_close) w0)) =
              trace w0 ++ tr /\ Forall no_push tr).
  { intros e w0. unfold bind.
    destruct (call_trace errorHandler e w0) as (tr & Htr & _ & Hnp).
    destruct (call errorHandler e w0) as [[e'|[]] w1]; cbn [snd] in *.
    - exists tr. by split.
    - exists (tr ++ [QClose]). unfold queue_close. cbn [snd trace].
      rewrite Htr, app_assoc. split; [done|].
      apply Forall_app. split; [done|]. by repeat constructor. }
  destruct (parseEventSourceStream stream) as [e|events ending].
  - destruct (Hrej e (mkWorld new h0 [])) as (tr & Htr & Hnp).
    exists [], tr. split; [|by split].
    destruct (bind _ _ _) as [r w1]. destruct r as [e'|[]]; exact Htr.
  - unfold try_catch_finally.
    destruct (for_await_trace schema errorHandler events ending (mkWorld new h0 []))
      as (tr0 & Htr0 & Hnc0).
    destruct (for_await events ending _ _) as [r1 w1]. cbn [snd trace app] in Htr0.
    assert (Hcatch : exists w2 r2 tr2,
              match r1 with inr tt => (inr tt, w1) | inl e => call errorHandler e w1 end
                = (r2, w2) /\ trace w2 = trace w1 ++ tr2 /\ Forall no_push tr2).
    { destruct r1 as [e|[]].
      - destruct (call_trace errorHandler e w1) as (tr & Htr & _ & Hnp).
        destruct (call errorHandler e w1) as [r2 w2]. by exists w2, r2, tr.
      - exists w1, (inr tt), []. rewrite app_nil_r. by repeat split. }
    destruct Hcatch as (w2 & r2 & tr2 & -> & Htr2 & Hnp2).
    cbn [queue_close]. unfold queue_close at 1.
    destruct r2 as [e2|[]].
    + destruct (Hrej e2 (mkWorld (close (output w2)) (hstate w2) (trace w2 ++ [QClose])))
        as (tr3 & Htr3 & Hnp3).
      exists tr0, (tr2 ++ [QClose] ++ tr3). split.
      * destruct (bind _ _ _) as [r w3]. cbn [snd trace] in *.
        rewrite Htr3, Htr2, Htr0. by rewrite <- !app_assoc.
      * split; [done|]. apply Forall_app. split; [done|].
        apply Forall_app. split; [by repeat constructor|done].
    + exists tr0, (tr2 ++ [QClose]). cbn [snd trace]. rewrite Htr2, Htr0, <- app_assoc.
      split; [done|]. split; [done|]. apply Forall_app. split; [done|].
      by repeat constructor.
Qed.

(** X5: when every frame is valid and the stream ends normally, every
    payload is pushed in order, the queue is closed once, and the error
    handler is never called, whatever handler was supplied. *)
Theorem all_valid_never_reports stream schema errorHandler (h0 : H) events :
  parseEventSourceStream stream = Resolved events Done ->
  invalid_errors safeParseJSON schema events = [] ->
  readEventSourceStream safeParseJSON parseEventSourceStream stream schema errorHandler h0 =
    (inr tt,
     mkWorld (mk (valid_data safeParseJSON schema events) Closed) h0
             (map QPush (valid_data safeParseJSON schema events) ++ [QClose])).
Proof.
  intros Hs Hv.
  unfold readEventSourceStream, read_loop, then_catch. rewrite Hs.
  unfold try_catch_finally, new.
  pose proof (for_await_valid_prefix schema errorHandler events [] Done [] h0 [] Hv) as Hrun.
  rewrite app_nil_r in Hrun. rewrite Hrun. reflexivity.
Qed.

End ReaderRuns.
(** *** Concrete runs *)

Import Json ParseJSON Scenarios.
Local Open Scope string_scope.

(** A handler that throws the first time it is called and returns
    afterwards. *)
Definition throws_once : @ErrorHandler nat :=
  fun e calls =>
    match calls with
    | O => (Some (JsError "handler failed"), 1%nat)
    | S _ => (None, S calls)
    end.

Lemma resolved_setup_always_closes_witness :
  let w := snd (run (Resolved [sse "not-json"; sse x_text] Done) x_schema (Some rethrow) tt) in
  status (output w) = Closed /\ In QClose (trace w).
Proof.
  destruct (resolved_setup_always_closes safeParseJSON (fun s : Setup => s)
              (Resolved [sse "not-json"; sse x_text] Done) x_schema (Some rethrow) tt
              _ _ eq_refl) as (Hst & _ & Hin).
  split; [exact Hst|exact Hin].
Defined.

Lemma rejected_setup_reported_once_witness :
  let '(outcome, w) := run (Rejected (JsError "locked")) x_schema (Some recorder) [] in
  outcome = inr tt /\ hstate w = [JsError "locked"] /\ consumer_view w = [Ended].
Proof.
  pose proof (rejected_setup_reported_once safeParseJSON (fun s : Setup => s)
                (Rejected (JsError "locked")) x_schema (Some recorder) [] _
                eq_refl (fun _ _ => eq_refl)) as Hw.
  unfold run. destruct (readEventSourceStream _ _ _ _ _ _) as [outcome w] eqn:Hrun.
  destruct Hw as (Hout & _ & _ & _ & Hview).
  split; [exact Hout|]. split; [|exact Hview].
  vm_compute in Hrun. by injection Hrun as _ <-.
Defined.

Lemma throwing_handler_stops_the_loop_witness :
  let '(outcome, w) :=
    run (Resolved ([sse x_text] ++ sse "not-json" :: [sse x_text; sse x_text]) Done)
      x_schema (Some throws_once) 0%nat in
  outcome = inr tt /\
  hstate w = 2%nat /\
  output w = mk [x_value] Closed /\
  pushed (trace w) = [x_value] /\
  consumer_view w = [Got x_value; Ended].
Proof.
  pose proof (throwing_handler_stops_the_loop safeParseJSON (fun s : Setup => s)
                (Resolved ([sse x_text] ++ sse "not-json" :: [sse x_text; sse x_text]) Done)
                x_schema throws_once 0%nat 1%nat [sse x_text] (sse "not-json")
                [sse x_text; sse x_text] Done (JSONParseError "not-json")
                (JsError "handler failed") eq_refl eq_refl eq_refl eq_refl) as Hw.
  unfold run.
  destruct (readEventSourceStream _ _ _ _ _ _) as [outcome w].
  destruct Hw as (Hqueue & Hpushed & Hview & rest & _ & _ & Hreturns).
  destruct (Hreturns eq_refl) as (_ & Hout & Hstate).
  split; [exact Hout|]. split; [exact Hstate|]. split; [exact Hqueue|].
  split; [exact Hpushed|exact Hview].
Defined.

Lemma all_valid_never_reports_witness :
  run (Resolved [sse x_text; sse x_text] Done) x_schema (Some rethrow) tt =
  (inr tt, mkWorld (mk [x_value; x_value] Closed) tt [QPush x_value; QPush x_value; QClose]).
Proof.
  exact (all_valid_never_reports safeParseJSON (fun s : Setup => s)
           (Resolved [sse x_text; sse x_text] Done) x_schema (Some rethrow) tt
           [sse x_text; sse x_text] eq_refl eq_refl).
Defined.

End ReaderRuns.

(** ** More on the stream-to-iterator adapter *)
Module IteratorRuns.
Import Iterator.

Section IteratorRuns.
Context {T R : Type}.
Variable read : R -> (error + ReadResult T) * R.

(** Successive [read()] calls from state [r] yield [values] and then
    reject with [e], leaving the reader in state [r']. *)
Fixpoint reads_then_fail (values : list T) (e : error) (r r' : R) : Prop :=
  match values with
  | [] => read r = (inl e, r')
  | value :: rest =>
      exists r1, read r = (inr (Chunk value), r1) /\ reads_then_fail rest e r1 r'
  end.

Lemma collect_until_failure values e : forall r r' n fuel,
  reads_then_fail values e r r' ->
  (length values < fuel)%nat ->
  collect read fuel (mkGenerator r false n) =
    (values, Raises e, mkGenerator r' true (n + S (length values))).
Proof.
  induction values as [|value rest IH]; intros r r' n fuel Hr Hf;
    (destruct fuel as [|fuel]; [cbn in Hf; lia|]); cbn in Hr.
  - cbn. rewrite Hr. do 2 f_equal. lia.
  - destruct Hr as (r1 & Hr1 & Hrest). cbn [collect]. unfold next at 1.
    cbn [finished reader reads]. rewrite Hr1.
    rewrite (IH r1 r' (S n) fuel Hrest) by (cbn in Hf; lia).
    f_equal. f_equal. cbn [length]. lia.
Qed.

(** X6: when a [read()] rejects after [v1 .. vn], the iteration yields
    exactly [v1 .. vn] and then fails with that rejection; the generator is
    finished after [n + 1] reads, and any later request answers done without
    touching the reader. *)
Theorem read_failure_ends_the_iteration (values : list T) (e : error) (r r' : R) (fuel : nat) :
  reads_then_fail values e r r' ->
  (length values < fuel)%nat ->
  let '(got, outcome, g) := collect read fuel (convertReadableStreamToAsyncIterator r) in
  got = values /\ outcome = Raises e /\
  reader g = r' /\ reads g = S (length values) /\
  next read g = (inr Returned, g).
Proof.
  intros Hr Hf. unfold convertReadableStreamToAsyncIterator.
  rewrite (collect_until_failure values e r r' 0 fuel Hr Hf). by repeat split.
Qed.

(** The reader after [k] successive calls of [read()], and what those
    calls answered. *)
Fixpoint read_times (k : nat) (r : R) : R :=
  match k with
  | O => r
  | S k' => read_times k' (snd (read r))
  end.

Fixpoint read_log (k : nat) (r : R) : list (error + ReadResult T) :=
  match k with
  | O => []
  | S k' => fst (read r) :: read_log k' (snd (read r))
  end.

(** The read that ended an iteration, if it has ended by a read. *)
Definition closing (was_finished : bool) (outcome : Outcome) : list (error + ReadResult T) :=
  if was_finished then []
  else
    match outcome with
    | StillRunning => []
    | Completes => [inr Finished]
    | Raises e => [inl e]
    end.

(** X7: the generator never reads ahead, and hands over all it reads.
    Over any reader, from any state of the generator, a consumer that makes
    at most [fuel] requests leaves the reader where [k] successive calls of
    [read()] take it, for some [k] up to [fuel]; what those [k] calls
    answered is exactly the values the consumer got, in order, followed by
    the done signal or the rejection that ended the iteration, if a read
    ended it; and when the consumer stopped for lack of requests it got
    exactly [fuel] values from exactly [fuel] reads. *)
Theorem never_reads_ahead (fuel : nat) (g : Generator) :
  let '(got, outcome, g') := collect read fuel g in
  exists k,
    (k <= fuel)%nat /\
    reader g' = read_times k (reader g) /\
    reads g' = (reads g + k)%nat /\
    read_log k (reader g) =
      map (fun v => inr (Chunk v)) got ++ closing (finished g) outcome /\
    (outcome = StillRunning -> k = fuel /\ length got = fuel).
Proof.
  revert g. induction fuel as [|fuel IH]; intros g.
  - cbn. exists 0%nat. split; [done|]. split; [done|]. split; [lia|].
    split; [by destruct (finished g)|done].
  - cbn [collect]. unfold next. destruct (finished g) eqn:Hfin.
    + exists 0%nat. cbn. split; [lia|]. split; [done|]. split; [lia|done].
    + destruct (read (reader g)) as [[e|[v|]] r'] eqn:Hread.
      * exists 1%nat. cbn. rewrite Hread. cbn.
        split; [lia|]. split; [done|]. split; [lia|done].
      * specialize (IH (mkGenerator r' false (S (reads g)))).
        destruct (collect read fuel _) as [[got outcome] g2].
        destruct IH as (k & Hk & Hreader & Hreads & Hlog & Hstill).
        cbn [reader reads finished] in *.
        exists (S k). cbn [read_times read_log map app length]. rewrite Hread.
        cbn [fst snd]. split; [lia|]. split; [done|]. split; [lia|].
        split; [by rewrite Hlog|].
        intros Ho. destruct (Hstill Ho) as [-> ->]. done.
      * exists 1%nat. cbn. rewrite Hread. cbn.
        split; [lia|]. split; [done|]. split; [lia|done].
Qed.

Lemma collect_prefix values : forall r r' n fuel,
  reads_then_done read values r r' ->
  (fuel <= length values)%nat ->
  exists r1,
    collect read fuel (mkGenerator r false n) =
      (take fuel values, StillRunning, mkGenerator r1 false (n + fuel)) /\
    reads_then_done read (drop fuel values) r1 r'.
Proof.
  induction values as [|value rest IH]; intros r r' n fuel Hr Hf.
  - assert (fuel = 0%nat) as -> by (cbn in Hf; lia).
    exists r. cbn. split; [|done]. do 2 f_equal. lia.
  - destruct fuel as [|fuel].
    + exists r. cbn [collect take drop]. split; [|done]. do 2 f_equal. lia.
    + destruct Hr as (r1 & Hr1 & Hrest). cbn [length] in Hf.
      destruct (IH r1 r' (S n) fuel Hrest ltac:(lia)) as (r2 & Hrun & Hleft).
      exists r2. cbn [collect take drop]. unfold next at 1.
      cbn [finished reader reads]. rewrite Hr1, Hrun. split; [|done].
      do 2 f_equal. lia.
Qed.

(** X8: a consumer that stops after [k] requests, with [k] at most the
    number of values the reader has, got the first [k] values in order; the
    generator is then still suspended after exactly [k] reads, and the
    reader still holds the remaining values followed by done. *)
Theorem early_stop_yields_a_prefix (values : list T) (r r' : R) (k : nat) :
  reads_then_done read values r r' ->
  (k <= length values)%nat ->
  let '(got, outcome, g) := collect read k (convertReadableStreamToAsyncIterator r) in
  got = take k values /\ outcome = StillRunning /\
  finished g = false /\ reads g = k /\
  reads_then_done read (drop k values) (reader g) r'.
Proof.
  intros Hr Hk. unfold convertReadableStreamToAsyncIterator.
  destruct (collect_prefix values r r' 0 k Hr Hk) as (r1 & -> & Hleft).
  by repeat split.
Qed.

End IteratorRuns.
(** A reader over a list of chunks that rejects once they are used up. *)
Definition failing_read {T} (chunks : list T) : (error + ReadResult T) * list T :=
  match chunks with
  | value :: rest => (inr (Chunk value), rest)
  | [] => (inl (JsError "network error"), [])
  end.

Lemma read_failure_ends_the_iteration_witness :
  let '(got, outcome, g) :=
    collect failing_read 5 (convertReadableStreamToAsyncIterator [1; 2]%Z) in
  got = [1; 2]%Z /\ outcome = Raises (JsError "network error") /\ reads g = 3%nat.
Proof.
  pose proof (read_failure_ends_the_iteration failing_read [1; 2]%Z
                (JsError "network error") [1; 2]%Z [] 5
                ltac:(cbn; repeat (eexists; split; [reflexivity|]); reflexivity)
                ltac:(cbn; lia)) as Hw.
  destruct (collect failing_read 5 _) as [[got outcome] g].
  destruct Hw as (Hg & Ho & _ & Hn & _). by repeat split.
Defined.

Lemma early_stop_yields_a_prefix_witness :
  let '(got, outcome, g) :=
    collect list_read 2 (convertReadableStreamToAsyncIterator [1; 2; 3]%Z) in
  got = [1; 2]%Z /\ outcome = StillRunning /\ reads g = 2%nat /\ reader g = [3]%Z.
Proof.
  pose proof (early_stop_yields_a_prefix list_read [1; 2; 3]%Z [1; 2; 3]%Z [] 2
                ltac:(cbn; repeat (eexists; split; [reflexivity|]); reflexivity)
                ltac:(cbn; lia)) as Hw.
  destruct (collect list_read 2 _) as [[got outcome] g] eqn:Hrun.
  destruct Hw as (Hg & Ho & _ & Hn & _).
  split; [exact Hg|]. split; [exact Ho|]. split; [exact Hn|].
  vm_compute in Hrun. by injection Hrun as _ _ <-.
Defined.

End IteratorRuns.

(** ** More on the Cohere text embedding model *)
Module CohereRuns.
Import Cohere.
Local Open Scope string_scope.

Lemma table_maxTokens name entry :
  COHERE_TEXT_EMBEDDING_MODELS name = Some entry -> fst entry = 4096%Z.
Proof.
  unfold COHERE_TEXT_EMBEDDING_MODELS.
  repeat (destruct (String.eqb name _); [by intros [= <-]|]). done.
Qed.

Lemma available_key_defined o env key :
  available_key o env = Some key -> key <> VUndefined.
Proof.
  unfold available_key. destruct (get "apiKey" o) eqn:E; try by intros [= <-].
  destruct env; [by intros [= <-]|done].
Qed.

Lemma available_key_none o env :
  available_key o env = None <-> get "apiKey" o = VUndefined /\ env = None.
Proof.
  unfold available_key. destruct (get "apiKey" o); [|by split; [|intros []]..].
  destruct env; by split; [|intros []].
Qed.

Lemma accepted_inv o env name found key :
  accepted o env = Some (name, found, key) ->
  name = get "model" o /\
  found = index_models (to_string (get "model" o)) /\
  found <> Undefined /\
  available_key o env = Some key.
Proof.
  unfold accepted.
  destruct (index_models (to_string (get "model" o))) eqn:Hfound; [| |done];
    (destruct (available_key o env) as [k|] eqn:Hk; [|done]);
    intros Heq; injection Heq as <- <- <-; by repeat split.
Qed.

(** X9: what every constructed instance satisfies.  The constructor
    leaves the store as it is and keeps the very settings object it was
    given; indexing the table with the model of the settings found
    something, which gives [maxTokens] and [embeddingDimensions]: 4096 and
    the dimensions of the model for a model of the table, [undefined] twice
    for a name the table only inherits; and the tokenizer got the model and
    a key that is not [undefined]: the one in the settings when there is
    one, else the one of the environment. *)
Theorem constructor_establishes (l : loc) (w w' : World) (o : object)
    (m : CohereTextEmbeddingModel) :
  heap w !! l = Some o ->
  constructor l w = (inr m, w') ->
  let found := index_models (to_string (get "model" o)) in
  w' = w /\ settings m = l /\
  tokenizer_model (tokenizer m) = get "model" o /\
  found <> Undefined /\
  maxTokens m = maxTokens_of found /\
  embeddingDimensions m = embeddingDimensions_of found /\
  (forall name entry,
     get "model" o = VString name -> COHERE_TEXT_EMBEDDING_MODELS name = Some entry ->
     maxTokens m = Some 4096%Z /\ embeddingDimensions m = Some (snd entry)) /\
  (found = Inherited -> maxTokens m = None /\ embeddingDimensions m = None) /\
  available_key o (COHERE_API_KEY w) = Some (tokenizer_apiKey (tokenizer m)) /\
  tokenizer_apiKey (tokenizer m) <> VUndefined.
Proof.
  intros Hl Hrun found.
  destruct (decide (found = Undefined)) as [Hun|Hfound].
  { unfold constructor, bind in Hrun.
    by rewrite (model_entry_undefined l w o Hl Hun) in Hrun. }
  destruct (available_key o (COHERE_API_KEY w)) as [key|] eqn:Hkey.
  2: { unfold constructor, bind in Hrun.
       rewrite (model_entry_found l w o Hl Hfound) in Hrun.
       by rewrite (apiKey_missing l w o Hl Hkey) in Hrun. }
  rewrite (constructor_accepts l w o key Hl Hfound Hkey) in Hrun.
  injection Hrun as <- <-. cbn [settings tokenizer maxTokens embeddingDimensions
                                 tokenizer_model tokenizer_apiKey].
  fold found. do 6 (split; [done|]). split.
  { intros name [tokens dimensions] Hmodel Hentry. subst found.
    rewrite Hmodel. cbn [to_string]. rewrite (index_entry name tokens dimensions Hentry).
    cbn [maxTokens_of embeddingDimensions_of snd]. split; [|done]. f_equal.
    exact (table_maxTokens name (tokens, dimensions) Hentry). }
  split; [by intros ->|]. split; [done|].
  by apply (available_key_defined o (COHERE_API_KEY w)).
Qed.

(** X10: how the constructor fails, and when.  It throws a [TypeError]
    exactly when indexing the table with the model of the settings gives
    [undefined], whether or not a key is there (the table is read first);
    and it throws the missing-key error exactly when the table gave
    something, the settings hold no key and the environment holds none.  It
    fails in no other way, and the store is untouched. *)
Theorem constructor_failures (l : loc) (w : World) (o : object) :
  heap w !! l = Some o ->
  let found := index_models (to_string (get "model" o)) in
  (found = Undefined -> constructor l w = (inl type_error, w)) /\
  (found <> Undefined -> get "apiKey" o = VUndefined -> COHERE_API_KEY w = None ->
   constructor l w = (inl no_api_key, w)) /\
  (forall e w', constructor l w = (inl e, w') ->
     w' = w /\
     ((e = type_error /\ found = Undefined) \/
      (e = no_api_key /\ found <> Undefined /\
       get "apiKey" o = VUndefined /\ COHERE_API_KEY w = None))).
Proof.
  intros Hl found.
  assert (Hundefined : found = Undefined -> constructor l w = (inl type_error, w)).
  { intros Hun. unfold constructor, bind.
    by rewrite (model_entry_undefined l w o Hl Hun). }
  assert (Hmissing : found <> Undefined ->
            available_key o (COHERE_API_KEY w) = None ->
            constructor l w = (inl no_api_key, w)).
  { intros Hfound Hkey. unfold constructor, bind.
    rewrite (model_entry_found l w o Hl Hfound).
    by rewrite (apiKey_missing l w o Hl Hkey). }
  split; [exact Hundefined|]. split.
  { intros Hfound Hkey Henv. apply Hmissing; [done|].
    by apply available_key_none. }
  intros e w' Hrun.
  destruct (decide (found = Undefined)) as [Hun|Hfound].
  { rewrite (Hundefined Hun) in Hrun. injection Hrun as <- <-. split; [done|]. by left. }
  destruct (available_key o (COHERE_API_KEY w)) as [key|] eqn:Hkey.
  { by rewrite (constructor_accepts l w o key Hl Hfound Hkey) in Hrun. }
  rewrite (Hmissing Hfound eq_refl) in Hrun. injection Hrun as <- <-. split; [done|].
  right. apply available_key_none in Hkey as [Hk Henv]. by repeat split.
Qed.

(** X11: [withSettings] composes.  [m.withSettings(a).withSettings(b)]
    gives an instance whose settings are those of [m] overlaid with [a] and
    then with [b] (a key of [b] wins over [a], a key of [a] over [m]), in a
    third object: the settings of [m] and of the instance in between are
    both as they were. *)
Theorem withSettings_twice (this : CohereTextEmbeddingModel) (a b : loc) (w : World)
    (ms sa sb : object) first second :
  heap w !! settings this = Some ms ->
  heap w !! a = Some sa ->
  heap w !! b = Some sb ->
  accepted (sa ∪ ms) (COHERE_API_KEY w) = Some first ->
  accepted (sb ∪ (sa ∪ ms)) (COHERE_API_KEY w) = Some second ->
  exists m1 w1 m2 w2,
    withSettings this a w = (inr m1, w1) /\
    withSettings m1 b w1 = (inr m2, w2) /\
    heap w2 !! settings m2 = Some (sb ∪ (sa ∪ ms)) /\
    (forall k, (sb ∪ (sa ∪ ms)) !! k =
               match sb !! k, sa !! k with
               | Some v, _ => Some v
               | None, Some v => Some v
               | None, None => ms !! k
               end) /\
    heap w2 !! settings m1 = Some (sa ∪ ms) /\
    heap w2 !! settings this = Some ms /\
    settings m1 <> settings this /\ settings m2 <> settings this /\
    settings m2 <> settings m1.
Proof.
  intros Hm Ha Hb H1 H2.
  destruct first as [[n1 e1] k1]. destruct second as [[n2 e2] k2].
  destruct (accepted_inv _ _ _ _ _ H1) as (Hmodel1 & Hentry1 & Hfound1 & Hkey1).
  destruct (accepted_inv _ _ _ _ _ H2) as (Hmodel2 & Hentry2 & Hfound2 & Hkey2).
  set (l1 := fresh (dom (heap w))).
  set (w1 := mkWorld (<[l1 := sa ∪ ms]> (heap w)) (COHERE_API_KEY w) (invoked w)).
  assert (Hl1m : l1 <> settings this) by (by apply (fresh_ne _ _ ms)).
  assert (Hl1b : l1 <> b) by (by apply (fresh_ne _ _ sb)).
  assert (Hw1l : heap w1 !! l1 = Some (sa ∪ ms)) by apply lookup_insert_eq.
  assert (Hw1b : heap w1 !! b = Some sb).
  { unfold w1. cbn [heap]. by rewrite lookup_insert_ne. }
  assert (Hw1m : heap w1 !! settings this = Some ms).
  { unfold w1. cbn [heap]. by rewrite lookup_insert_ne. }
  set (m1 := mkModel l1 (maxTokens_of e1) (mkTokenizer k1 n1) (embeddingDimensions_of e1)).
  assert (Hrun1 : withSettings this a w = (inr m1, w1)).
  { rewrite (withSettings_merges this a w ms sa Hm Ha). fold l1. fold w1.
    unfold m1. subst n1 e1.
    by apply (constructor_accepts l1 w1 (sa ∪ ms)). }
  set (l2 := fresh (dom (heap w1))).
  set (w2 := mkWorld (<[l2 := sb ∪ (sa ∪ ms)]> (heap w1)) (COHERE_API_KEY w1) (invoked w1)).
  assert (Hl2l1 : l2 <> l1) by (by apply (fresh_ne _ _ (sa ∪ ms))).
  assert (Hl2m : l2 <> settings this) by (by apply (fresh_ne _ _ ms)).
  set (m2 := mkModel l2 (maxTokens_of e2) (mkTokenizer k2 n2) (embeddingDimensions_of e2)).
  assert (Hrun2 : withSettings m1 b w1 = (inr m2, w2)).
  { rewrite (withSettings_merges m1 b w1 (sa ∪ ms) sb Hw1l Hw1b). fold l2. fold w2.
    unfold m2. subst n2 e2.
    apply (constructor_accepts l2 w2 (sb ∪ (sa ∪ ms))); try done.
    by apply lookup_insert_eq. }
  exists m1, w1, m2, w2. split; [done|]. split; [done|]. cbn [settings].
  split; [by apply lookup_insert_eq|]. split.
  { intros k. rewrite !lookup_union. by destruct (sb !! k), (sa !! k), (ms !! k). }
  split; [unfold w2; cbn [heap]; by rewrite lookup_insert_ne|].
  split; [unfold w2; cbn [heap]; by rewrite lookup_insert_ne|].
  done.
Qed.

Section CallRuns.
Context {Response : Type}.
Variable functions : nat -> option (@Wrapper Response).
Variable retryWithExponentialBackoff throttleUnlimitedConcurrency : @Wrapper Response.
Variable postJsonToApi : Request -> C Response.

Definition signal_of (context : option RunContext) : value :=
  match context with
  | Some (mkRunContext (Some id)) => VSignal id
  | _ => VUndefined
  end.

(** The function [callAPI] hands to the throttle wrapper, lines 134 to
    141: one attempt at the call. *)
Definition attempt (this : CohereTextEmbeddingModel) (texts : list string)
    (context : option RunContext) : C Response :=
  do key <- apiKey (settings this) ;
  do o <- read_settings (settings this) ;
  callCohereEmbeddingAPI postJsonToApi
    (o ∪ {[ "abortSignal" := signal_of context;
            "apiKey" := key;
            "texts" := VStrings texts ]}).

(** [callAPI] with at most 96 texts: the retry wrapper of the settings, or
    the default, is given a function that gives the throttle wrapper the
    attempt.  How often an attempt runs is up to the wrappers. *)
Definition attempts_wrapped (this : CohereTextEmbeddingModel) (texts : list string)
    (context : option RunContext) : C Response :=
  do retry <- wrapper_of functions "retry" retryWithExponentialBackoff this ;
  invoke RetryWrapper (retry (fun _ =>
    do throttle <- wrapper_of functions "throttle" throttleUnlimitedConcurrency this ;
    invoke ThrottleWrapper (throttle (fun _ => attempt this texts context)))).

Lemma callAPI_hands_attempt (this : CohereTextEmbeddingModel) (texts : list string)
    (context : option RunContext) :
  (length texts <= 96)%nat ->
  callAPI functions retryWithExponentialBackoff throttleUnlimitedConcurrency postJsonToApi
    this texts context = attempts_wrapped this texts context.
Proof.
  intros Hlen. unfold callAPI, maxTextsPerCall. apply Nat.ltb_ge in Hlen. by rewrite Hlen.
Qed.

Lemma get_union k (o f : object) :
  get k (o ∪ f) = match o !! k with Some v => v | None => get k f end.
Proof. unfold get. rewrite lookup_union. by destruct (o !! k), (f !! k). Qed.

(** [`${baseUrl}/embed`] for a base URL that is a string or left out. *)
Definition base_url (o : object) : option string :=
  match get "baseUrl" o with
  | VUndefined => Some "https://api.cohere.ai/v1"
  | VString given => Some given
  | _ => None
  end.

(** An attempt that finds a key reaches [postJsonToApi] once.  The request
    is read off the settings spread over the fields of the call: a property
    of the settings wins. *)
Lemma attempt_request (this : CohereTextEmbeddingModel) (texts : list string)
    (context : option RunContext) (w : World) (o : object) key base :
  heap w !! settings this = Some o ->
  available_key o (COHERE_API_KEY w) = Some key ->
  base_url o = Some base ->
  attempt this texts context w =
  postJsonToApi
    (mkRequest (base +:+ "/embed")
               (default key (o !! "apiKey"))
               (get "model" o)
               (default (VStrings texts) (o !! "texts"))
               (get "truncate" o)
               (default (signal_of context) (o !! "abortSignal")))
    (mkWorld (heap w) (COHERE_API_KEY w) (invoked w ++ [NetworkCall])).
Proof.
  intros Hl Hkey Hbase. unfold attempt. unfold bind at 1.
  rewrite (apiKey_available (settings this) w o key Hl Hkey).
  unfold bind at 1. rewrite (read_settings_at (settings this) w o Hl).
  unfold callCohereEmbeddingAPI, invoke. rewrite !get_union.
  f_equal. unfold base_url, get in *.
  f_equal; repeat (rewrite ?lookup_insert_eq, ?lookup_insert_ne, ?lookup_singleton_eq,
                     ?lookup_singleton_ne, ?lookup_empty by done);
    try by destruct (o !! _).
  destruct (o !! "baseUrl") as [[| | | |]|]; by simplify_eq/=.
Qed.

(** X12: the API key is looked for when an attempt runs, inside the
    function handed to the throttle wrapper.  Whatever the retry and
    throttle wrappers are, an attempt made while neither the settings nor
    the environment hold a key fails with the missing-key error and makes no
    network call: the world, with its record of calls, is as before. *)
Theorem callAPI_missing_key (this : CohereTextEmbeddingModel) (texts : list string)
    (context : option RunContext) (w : World) (o : object) :
  heap w !! settings this = Some o ->
  get "apiKey" o = VUndefined ->
  COHERE_API_KEY w = None ->
  attempt this texts context w = (inl no_api_key, w) /\
  ((length texts <= 96)%nat ->
   callAPI functions retryWithExponentialBackoff throttleUnlimitedConcurrency postJsonToApi
     this texts context = attempts_wrapped this texts context).
Proof.
  intros Hl Hkey Henv. split; [|apply callAPI_hands_attempt].
  unfold attempt. unfold bind at 1.
  rewrite (apiKey_missing (settings this) w o Hl); [done|].
  by apply available_key_none.
Qed.

(** X13: the request of an attempt.  For settings without [texts],
    [abortSignal] and [apiKey] properties of their own and a key in the
    environment, an attempt posts once: to the base URL of the settings (or
    the Cohere default) followed by [/embed], with the environment's key,
    the model and truncation of the settings, the texts and the abort signal
    of the call. *)
Theorem callAPI_posts_the_request (this : CohereTextEmbeddingModel) (texts : list string)
    (context : option RunContext) (w : World) (o : object) key base :
  heap w !! settings this = Some o ->
  o !! "apiKey" = None -> COHERE_API_KEY w = Some key ->
  o !! "texts" = None -> o !! "abortSignal" = None ->
  base_url o = Some base ->
  attempt this texts context w =
    postJsonToApi
      (mkRequest (base +:+ "/embed") (VString key) (get "model" o) (VStrings texts)
                 (get "truncate" o) (signal_of context))
      (mkWorld (heap w) (COHERE_API_KEY w) (invoked w ++ [NetworkCall])) /\
  ((length texts <= 96)%nat ->
   callAPI functions retryWithExponentialBackoff throttleUnlimitedConcurrency postJsonToApi
     this texts context = attempts_wrapped this texts context).
Proof.
  intros Hl Hk Henv Htexts Hsignal Hbase. split; [|apply callAPI_hands_attempt].
  rewrite (attempt_request this texts context w o (VString key) base); try done.
  - by rewrite Hk, Htexts, Hsignal.
  - unfold available_key, get. by rewrite Hk, Henv.
Qed.

(** X14: a property of the settings wins over the field of the call.
    When the settings hold an [apiKey] property of their own, the request of
    an attempt carries the value of that property and not the key the getter
    found: with [apiKey: undefined] in the settings and a key in the
    environment, the request goes out without a key. *)
Theorem callAPI_settings_key_wins (this : CohereTextEmbeddingModel) (texts : list string)
    (context : option RunContext) (w : World) (o : object) held found base :
  heap w !! settings this = Some o ->
  o !! "apiKey" = Some held ->
  available_key o (COHERE_API_KEY w) = Some found ->
  base_url o = Some base ->
  (exists request,
     attempt this texts context w =
       postJsonToApi request
         (mkWorld (heap w) (COHERE_API_KEY w) (invoked w ++ [NetworkCall])) /\
     request_apiKey request = held /\
     url request = base +:+ "/embed" /\ body_model request = get "model" o) /\
  ((length texts <= 96)%nat ->
   callAPI functions retryWithExponentialBackoff throttleUnlimitedConcurrency postJsonToApi
     this texts context = attempts_wrapped this texts context).
Proof.
  intros Hl Hheld Hfound Hbase. split; [|apply callAPI_hands_attempt].
  eexists. split; [exact (attempt_request this texts context w o found base Hl Hfound Hbase)|].
  cbn [request_apiKey url body_model]. by rewrite Hheld.
Qed.

End CallRuns.
(** *** A store with a key in the environment *)

Definition multilingual : object := {[ "model" := VString "embed-multilingual-v2.0" ]}.
Definition local_base : object := {[ "baseUrl" := VString "http://localhost:8080/v1" ]}.
Definition key_undefined : object :=
  {[ "model" := VString "embed-english-light-v2.0"; "apiKey" := VUndefined ]}.
Definition inherited_name : object := {[ "model" := VString "toString" ]}.

Definition keyed_store : World :=
  mkWorld {[ 1%positive := multilingual; 2%positive := local_base;
             3%positive := truncate_end; 4%positive := key_undefined;
             5%positive := inherited_name ]}
          (Some "env-key") [].

Definition multilingual_model : CohereTextEmbeddingModel :=
  mkModel 1 (Some 4096%Z)
          (mkTokenizer (VString "env-key") (VString "embed-multilingual-v2.0")) (Some 768%Z).

Definition light_model : CohereTextEmbeddingModel :=
  mkModel 4 (Some 4096%Z)
          (mkTokenizer (VString "env-key") (VString "embed-english-light-v2.0"))
          (Some 1024%Z).

(** A model name that the table only inherits is accepted, and leaves the
    two figures undefined; without a key it is the key that is missed. *)
Example inherited_name_constructs :
  constructor 5 keyed_store =
    (inr (mkModel 5 None (mkTokenizer (VString "env-key") (VString "toString")) None),
     keyed_store) /\
  fst (constructor 5 (mkWorld (heap keyed_store) None [])) = inl no_api_key.
Proof. split; vm_compute; reflexivity. Qed.

(** A retry wrapper that makes a second attempt when the first fails, a
    throttle wrapper that just runs what it is given, and a network call
    that answers with the request it got. *)
Definition retry_once_more : @Wrapper Request :=
  fun k w =>
    match k tt w with
    | (inl _, w') => k tt w'
    | done => done
    end.
Definition run_once : @Wrapper Request := fun k => k tt.
Definition echo : Request -> C Request := fun request => ret request.

Lemma constructor_establishes_witness :
  constructor 1 keyed_store = (inr multilingual_model, keyed_store) /\
  maxTokens multilingual_model = Some 4096%Z /\
  tokenizer_apiKey (tokenizer multilingual_model) <> VUndefined.
Proof.
  assert (Hrun : constructor 1 keyed_store = (inr multilingual_model, keyed_store))
    by (vm_compute; reflexivity).
  destruct (constructor_establishes 1 keyed_store keyed_store multilingual
              multilingual_model eq_refl Hrun)
    as (_ & _ & _ & _ & _ & _ & Hentry & _ & _ & Hkey).
  destruct (Hentry "embed-multilingual-v2.0" (4096, 768)%Z eq_refl eq_refl) as [Hmax _].
  split; [exact Hrun|]. split; [exact Hmax|exact Hkey].
Defined.

Lemma constructor_failures_witness :
  constructor 2 store = (inl type_error, store) /\
  constructor 1 (mkWorld {[ 1%positive := inherited_name ]} None []) =
    (inl no_api_key, mkWorld {[ 1%positive := inherited_name ]} None []).
Proof.
  split.
  - exact (proj1 (constructor_failures 2 store unset_key eq_refl) eq_refl).
  - refine (proj1 (proj2 (constructor_failures 1
              (mkWorld {[ 1%positive := inherited_name ]} None []) inherited_name eq_refl))
              _ eq_refl eq_refl).
    vm_compute. discriminate.
Defined.

Lemma withSettings_twice_witness :
  exists m1 w1 m2 w2,
    withSettings multilingual_model 3 keyed_store = (inr m1, w1) /\
    withSettings m1 2 w1 = (inr m2, w2) /\
    heap w2 !! settings m2 =
      Some {[ "model" := VString "embed-multilingual-v2.0"; "truncate" := VString "END";
              "baseUrl" := VString "http://localhost:8080/v1" ]} /\
    heap w2 !! 1%positive = Some multilingual.
Proof.
  destruct (withSettings_twice multilingual_model 3 2 keyed_store
              multilingual truncate_end local_base
              (VString "embed-multilingual-v2.0", Entry 4096 768, VString "env-key")
              (VString "embed-multilingual-v2.0", Entry 4096 768, VString "env-key")
              eq_refl eq_refl eq_refl eq_refl eq_refl)
    as (m1 & w1 & m2 & w2 & H1 & H2 & Hnew & _ & _ & Hold & _).
  exists m1, w1, m2, w2. split; [exact H1|]. split; [exact H2|]. split; [|exact Hold].
  rewrite Hnew. f_equal.
Defined.

Lemma callAPI_missing_key_witness :
  attempt echo multilingual_model ["a"; "b"] None
    (mkWorld {[ 1%positive := multilingual ]} None []) =
    (inl no_api_key, mkWorld {[ 1%positive := multilingual ]} None []) /\
  callAPI (fun _ => None) retry_once_more run_once echo multilingual_model ["a"; "b"] None
    (mkWorld {[ 1%positive := multilingual ]} None []) =
  (inl no_api_key,
   mkWorld {[ 1%positive := multilingual ]} None
           [RetryWrapper; ThrottleWrapper; ThrottleWrapper]).
Proof.
  pose proof (callAPI_missing_key (fun _ => None) retry_once_more run_once echo
                multilingual_model ["a"; "b"] None
                (mkWorld {[ 1%positive := multilingual ]} None []) multilingual) as Hw.
  destruct Hw as [Hattempt Hcall]; [vm_compute; reflexivity..|].
  split; [exact Hattempt|].
  rewrite (Hcall ltac:(cbn; lia)). vm_compute. reflexivity.
Defined.

Lemma callAPI_posts_the_request_witness :
  fst (attempt echo multilingual_model ["a"; "b"] None keyed_store) =
  inr (mkRequest "https://api.cohere.ai/v1/embed" (VString "env-key")
                 (VString "embed-multilingual-v2.0") (VStrings ["a"; "b"])
                 VUndefined VUndefined) /\
  callAPI (fun _ => None) retry_once_more run_once echo multilingual_model ["a"; "b"] None
    keyed_store =
  (inr (mkRequest "https://api.cohere.ai/v1/embed" (VString "env-key")
                  (VString "embed-multilingual-v2.0") (VStrings ["a"; "b"])
                  VUndefined VUndefined),
   mkWorld (heap keyed_store) (Some "env-key") [RetryWrapper; ThrottleWrapper; NetworkCall]).
Proof.
  destruct (callAPI_posts_the_request (fun _ => None) retry_once_more run_once echo
              multilingual_model ["a"; "b"] None keyed_store multilingual "env-key"
              "https://api.cohere.ai/v1"
              eq_refl eq_refl eq_refl eq_refl eq_refl eq_refl) as [Hattempt Hcall].
  split.
  - rewrite Hattempt. reflexivity.
  - rewrite (Hcall ltac:(cbn; lia)). vm_compute. reflexivity.
Defined.

Lemma callAPI_settings_key_wins_witness :
  constructor 4 keyed_store = (inr light_model, keyed_store) /\
  exists request,
    fst (attempt echo light_model ["a"] None keyed_store) = inr request /\
    request_apiKey request = VUndefined.
Proof.
  split; [vm_compute; reflexivity|].
  destruct (callAPI_settings_key_wins (fun _ => None) run_once run_once echo
              light_model ["a"] None keyed_store key_undefined VUndefined (VString "env-key")
              "https://api.cohere.ai/v1" eq_refl eq_refl eq_refl eq_refl)
    as [(request & Hattempt & Hkey & _) _].
  exists request. split; [|exact Hkey]. rewrite Hattempt. reflexivity.
Defined.

End CohereRuns.
